(** * Message framing and connect retry of the IPC library (source/ipc.cpp)

    A shallow embedding of the four stream operators of [ipc.cpp]
    ([out_message::operator<<] for strings and blobs, [in_message::operator>>]
    for strings and blobs) and of [client_socket::connect_proc], together with
    the properties of the framing that the specification states.

    Conventions.
    - A buffer ([std::vector<char>]) is a [list byte]; a [std::string] or a
      [std::string_view] is a [list byte] as well, since both may hold any
      byte, 0 included.
    - [size_t] is a 64-bit unsigned integer: a [Z] with its wrap-around
      written out ([wrap_size_t]).
    - [__MSG_LENGTH_TYPE__] is an unsigned integer of [L] bytes, stored in
      host order, taken here to be little-endian.  [L], the result of
      [get_max_size()] and the [__MSG_USE_TAGS__] switch come from the header
      [ipc.hpp] and are parameters of the development.
    - Reading outside the buffer is undefined behaviour in C++; the model
      has an outcome [Undefined] for it. *)

From Stdlib Require Import String ZArith List Bool Lia.
From Stdlib.Strings Require Import Byte.
Import ListNotations.
Local Open Scope Z_scope.

(** ** Bytes and fixed-width unsigned integers *)

Module Wire.

Definition byte_to_Z (b : byte) : Z := Z.of_N (Byte.to_N b).

Definition byte_of_Z (z : Z) : byte :=
  match Byte.of_N (Z.to_N (z mod 256)) with
  | Some b => b
  | None => x00
  end.

(** [n] bytes of [v], least significant first: what a store through a
    [T*] writes for an unsigned [T] of [n] bytes. *)
Fixpoint le_encode (n : nat) (v : Z) : list byte :=
  match n with
  | O => []
  | S n' => byte_of_Z v :: le_encode n' (v / 256)
  end.

(** The unsigned value a load through a [T*] reads from these bytes. *)
Fixpoint le_decode (bs : list byte) : Z :=
  match bs with
  | [] => 0
  | b :: bs' => byte_to_Z b + 256 * le_decode bs'
  end.

(** Arithmetic of an unsigned type of [n] bytes. *)
Definition wrap (n : nat) (v : Z) : Z := v mod 2 ^ (8 * Z.of_nat n).

(** [size_t] on the 64-bit targets of the library. *)
Definition wrap_size_t (v : Z) : Z := v mod 2 ^ 64.

(** [count] bytes of [buf] from index [off], when they are all inside. *)
Definition slice (buf : list byte) (off count : Z) : option (list byte) :=
  if (0 <=? off) && (0 <=? count) && (off + count <=? Z.of_nat (length buf))
  then Some (firstn (Z.to_nat count) (skipn (Z.to_nat off) buf))
  else None.

(** [memchr(p, c, n)]: the index of the first [c] among the first [n]
    bytes at [p].  The scan stops at the first match; [None] stands for a
    scan that leaves the allocation, [Some None] for [nullptr]. *)
Fixpoint memchr (p : list byte) (c : byte) (n : nat) {struct n}
  : option (option Z) :=
  match n with
  | O => Some None
  | S n' =>
      match p with
      | [] => None
      | b :: p' =>
          if Byte.eqb b c then Some (Some 0)
          else match memchr p' c n' with
               | Some (Some k) => Some (Some (k + 1))
               | r => r
               end
      end
  end.

End Wire.
Import Wire.

(** ** Exceptions, outcomes and the monad of a stream operator *)

Inductive exn : Type :=
| bad_message_exception
| message_overflow_exception
| message_too_short_exception
| container_overflow_exception
| type_mismach_exception
| active_socket_prepare_exception.

(** What a call does to the state [St] it works on: it returns, it throws
    (the state is the one at the [throw]), or its behaviour is undefined. *)
Inductive outcome (St A : Type) : Type :=
| Returns (a : A) (s : St)
| Throws (e : exn) (s : St)
| Undefined.
Arguments Returns {St A} a s.
Arguments Throws {St A} e s.
Arguments Undefined {St A}.

Definition M (St A : Type) : Type := St -> outcome St A.

Definition ret {St A} (a : A) : M St A := fun s => Returns a s.

Definition bind {St A B} (m : M St A) (f : A -> M St B) : M St B :=
  fun s =>
    match m s with
    | Returns a s' => f a s'
    | Throws e s' => Throws e s'
    | Undefined => Undefined
    end.

Definition gets {St A} (f : St -> A) : M St A := fun s => Returns (f s) s.
Definition modify {St} (f : St -> St) : M St unit := fun s => Returns tt (f s).
Definition throw {St A} (e : exn) : M St A := fun s => Throws e s.
Definition undefined {St A} : M St A := fun _ => Undefined.
Definition when {St} (c : bool) (m : M St unit) : M St unit :=
  if c then m else ret tt.
Definition lift_option {St A} (o : option A) : M St A :=
  match o with
  | Some a => ret a
  | None => undefined
  end.

Declare Scope cursor_scope.
Delimit Scope cursor_scope with cursor.
Notation "x <- m ;; k" := (bind m (fun x => k))
  (at level 61, m at next level, right associativity) : cursor_scope.
Notation "m ;; k" := (bind m (fun _ => k))
  (at level 61, right associativity) : cursor_scope.
Local Open Scope cursor_scope.

(** ** The message classes *)

(** [class message]: the buffer and the fail flag ([m_ok] is [false] once the
    flag is set). *)
Record message : Type := mk_message {
  m_buffer : list byte;
  m_ok : bool
}.

Definition out_message : Type := message.

(** [class in_message : public message], with its read offset. *)
Record in_message : Type := mk_in_message {
  base :> message;
  m_offset : Z
}.

(** Every state a stream operator works on holds one message. *)
Class Cursor (St : Type) : Type := {
  the_message : St -> message;
  with_message : message -> St -> St
}.

#[export] Instance Cursor_message : Cursor message := {
  the_message m := m;
  with_message m' _ := m'
}.

#[export] Instance Cursor_in_message : Cursor in_message := {
  the_message m := base m;
  with_message m' m := mk_in_message m' (m_offset m)
}.

(** An extraction works on the cursor and on the destination [arg], which
    the operator takes by reference. *)
#[export] Instance Cursor_extraction {St T} `{Cursor St} : Cursor (St * T) := {
  the_message s := the_message (fst s);
  with_message m' s := (with_message m' (fst s), snd s)
}.

Definition set_ok {St} `{Cursor St} (b : bool) (s : St) : St :=
  with_message (mk_message (m_buffer (the_message s)) b) s.

Definition set_buffer {St} `{Cursor St} (buf : list byte) (s : St) : St :=
  with_message (mk_message buf (m_ok (the_message s))) s.

(** Modelled from the spec: [check_status<exception_t>(status, ...)] of
    [ipc.hpp], which is not part of the sources at hand.  "Once set, every
    further operation rejects immediately and throws the bad message error":
    it throws when the flag is set and does nothing else. *)
Definition check_status {St} `{Cursor St} (e : exn) : M St unit :=
  fun s => if m_ok (the_message s) then Returns tt s else Throws e s.

(** Modelled from the spec: [fail_status(thrower, status, ...)] of [ipc.hpp],
    which is not part of the sources at hand.  "Every raise latches the
    relevant cursor's fail flag": it sets the flag, then throws. *)
Definition fail_status {St A} `{Cursor St} (e : exn) : M St A :=
  fun s => Throws e (set_ok false s).

(** Modelled from the spec: the enumerators of [message::type_tag], declared in
    [ipc.hpp].  Their names are those [message::to_string] switches over;
    their values are the ones of the table of section 3. *)
Module type_tag.
Inductive t : Type :=
| u32 | i32 | u64 | i64 | fp64 | chr | str | remote_ptr | blob.
End type_tag.

Definition tag_code (t : type_tag.t) : byte :=
  match t with
  | type_tag.u32 => x00
  | type_tag.i32 => x01
  | type_tag.u64 => x02
  | type_tag.i64 => x03
  | type_tag.fp64 => x04
  | type_tag.chr => x05
  | type_tag.str => x06
  | type_tag.remote_ptr => x07
  | type_tag.blob => x08
  end.

(** The elements [ipc.cpp] extracts. *)
Inductive element : Type := a_string | a_blob.

Definition requested_tag (e : element) : type_tag.t :=
  match e with
  | a_string => type_tag.str
  | a_blob => type_tag.blob
  end.

Section Framing.

(** [sizeof(__MSG_LENGTH_TYPE__)]. *)
Variable L : nat.
(** [get_max_size()]. *)
Variable max_size : Z.
(** [__MSG_USE_TAGS__]. *)
Variable use_tags : bool.

(** The value of the [__MSG_LENGTH_TYPE__] object at index [off] of a
    buffer, when it lies inside. *)
Definition length_field (buf : list byte) (off : Z) : option Z :=
  option_map le_decode (slice buf off (Z.of_nat L)).

(** The byte at index [off] of a buffer, when there is one. *)
Definition byte_at (buf : list byte) (off : Z) : option byte :=
  match slice buf off 1 with
  | Some (b :: _) => Some b
  | _ => None
  end.

Section Accessors.
Context {St : Type} `{Cursor St}.

(** [*(__MSG_LENGTH_TYPE__* )&m_buffer[off]] as an rvalue. *)
Definition load_length (off : Z) : M St Z :=
  fun s => lift_option (length_field (m_buffer (the_message s)) off) s.

(** [m_buffer[off]]. *)
Definition load_byte (off : Z) : M St byte :=
  fun s => lift_option (byte_at (m_buffer (the_message s)) off) s.

(** The [count] bytes at [&m_buffer[off]]. *)
Definition load_bytes (off count : Z) : M St (list byte) :=
  fun s => lift_option (slice (m_buffer (the_message s)) off count) s.

(** [memchr(&m_buffer[off], c, n)], as an index relative to [off]. *)
Definition find_byte (off : Z) (c : byte) (n : Z) : M St (option Z) :=
  fun s =>
    if (0 <=? off) && (off <? Z.of_nat (length (m_buffer (the_message s))))
    then lift_option
           (memchr (skipn (Z.to_nat off) (m_buffer (the_message s))) c
                   (Z.to_nat n)) s
    else Undefined.
End Accessors.

(** The constants [delta] of the four operators: the bytes an element
    takes besides its payload, as each operator counts them. *)
Definition out_string_delta : Z := if use_tags then 2 else 1.
Definition out_blob_delta : Z := if use_tags then 1 else 0.
Definition in_string_delta : Z := if use_tags then 2 else 1.
Definition in_blob_delta : Z :=
  if use_tags then 1 + Z.of_nat L else Z.of_nat L.

(** The size of the tag of an element: one byte in tagged mode. *)
Definition tag_size : Z := if use_tags then 1 else 0.

(** The tag that precedes an element in tagged mode. *)
Definition tag_bytes (t : type_tag.t) : list byte :=
  if use_tags then [tag_code t] else [].

(** *** out_message *)

(** [m_buffer.push_back(c)]. *)
Definition push_back (c : byte) : M out_message unit :=
  modify (fun m => set_buffer (m_buffer m ++ [c]) m).

(** [m_buffer.insert(m_buffer.end(), first, first + len)]. *)
Definition insert_end (bytes : list byte) : M out_message unit :=
  modify (fun m => set_buffer (m_buffer m ++ bytes) m).

(** [*(__MSG_LENGTH_TYPE__* )m_buffer.data() += (__MSG_LENGTH_TYPE__)v]. *)
Definition add_to_length (v : Z) : M out_message unit :=
  cur <- load_length 0 ;;
  modify (fun m =>
    set_buffer (le_encode L (wrap L (cur + wrap L v))
                  ++ skipn L (m_buffer m)) m).

(** [out_message& out_message::operator << (const std::string_view& s)] *)
Definition out_string (s : list byte) : M out_message unit :=
  check_status bad_message_exception ;;
  let delta := out_string_delta in
  let len := Z.of_nat (length s) in
  used <- load_length 0 ;;
  let new_used := wrap_size_t (used + len + delta) in
  if max_size <? new_used then fail_status message_overflow_exception
  else
    when use_tags (push_back (tag_code type_tag.str)) ;;
    insert_end s ;;
    push_back x00 ;;
    add_to_length new_used.

(** [out_message& out_message::operator <<
      (const std::pair<const uint8_t*, size_t>& blob)] *)
Definition out_blob (blob : list byte) : M out_message unit :=
  check_status bad_message_exception ;;
  let delta := out_blob_delta in
  let len := Z.of_nat (length blob) in
  used <- load_length 0 ;;
  let new_used := wrap_size_t (used + len + delta) in
  if max_size <? new_used then fail_status message_overflow_exception
  else
    when use_tags (push_back (tag_code type_tag.blob)) ;;
    let blob_len := wrap L len in
    insert_end (le_encode L blob_len) ;;
    insert_end blob ;;
    add_to_length new_used.

(** *** in_message *)

Definition extraction (T : Type) : Type := (in_message * T)%type.

Definition offset {T} (s : extraction T) : Z := m_offset (fst s).

Definition set_offset {T} (off : Z) : M (extraction T) unit :=
  modify (fun s => (mk_in_message (base (fst s)) off, snd s)).

(** [arg = v], for the destination of the extraction. *)
Definition assign {T} (v : T) : M (extraction T) unit :=
  modify (fun s => (fst s, v)).

(** The tagged-mode prologue of an extraction: compare the tag at the
    offset with the requested one, then step over it. *)
Definition expect_tag {T} (t : type_tag.t) : M (extraction T) unit :=
  off <- gets offset ;;
  tag <- load_byte off ;;
  when (negb (Byte.eqb tag (tag_code t)))
       (fail_status type_mismach_exception) ;;
  set_offset (wrap_size_t (off + 1)).

(** [in_message& in_message::operator >> (std::string& arg)] *)
Definition in_string : M (extraction (list byte)) unit :=
  check_status bad_message_exception ;;
  assign [] ;;
  size <- load_length 0 ;;
  let delta := in_string_delta in
  off <- gets offset ;;
  when (size <? wrap_size_t (off + delta))
       (fail_status message_too_short_exception) ;;
  when use_tags (expect_tag type_tag.str) ;;
  off <- gets offset ;;
  r <- find_byte off x00 (wrap_size_t (size - off)) ;;
  match r with
  | None =>
      modify (set_ok false) ;;
      throw container_overflow_exception
  | Some k =>
      bytes <- load_bytes off k ;;
      assign bytes ;;
      set_offset (wrap_size_t (off + wrap_size_t (k + 1)))
  end.

(** [in_message& in_message::operator >> (std::vector<uint8_t>& blob)] *)
Definition in_blob : M (extraction (list byte)) unit :=
  check_status bad_message_exception ;;
  size <- load_length 0 ;;
  let delta := in_blob_delta in
  off <- gets offset ;;
  when (size <? wrap_size_t (off + delta))
       (fail_status message_too_short_exception) ;;
  when use_tags (expect_tag type_tag.blob) ;;
  off <- gets offset ;;
  blob_len <- load_length off ;;
  set_offset (wrap_size_t (off + Z.of_nat L)) ;;
  off <- gets offset ;;
  when (size <? wrap_size_t (off + blob_len))
       (fail_status message_too_short_exception) ;;
  if negb (blob_len =? 0) then
    bytes <- load_bytes off blob_len ;;
    assign bytes ;;
    set_offset (wrap_size_t (off + blob_len))
  else ret tt.

(** The two extractions, by the kind of element requested. *)
Definition extract (e : element) : M (extraction (list byte)) unit :=
  match e with
  | a_string => in_string
  | a_blob => in_blob
  end.

Definition in_delta (e : element) : Z :=
  match e with
  | a_string => in_string_delta
  | a_blob => in_blob_delta
  end.

(** Extractions in a row, as in [in >> a >> b]: an exception ends the
    chain. *)
Fixpoint extract_all (es : list element) : M (extraction (list byte)) unit :=
  match es with
  | [] => ret tt
  | e :: es' => extract e ;; extract_all es'
  end.

(** Modelled from the spec: [out_message::clear()] of [ipc.hpp], which is not
    part of the sources at hand.  "Clear resets buffer to a fresh length
    prefix of value L and clears fail." *)
Definition clear : M out_message unit :=
  modify (fun _ => mk_message (le_encode L (Z.of_nat L)) true).

(** A message as its constructor leaves it. *)
Definition fresh_out_message : out_message :=
  mk_message (le_encode L (Z.of_nat L)) true.

(** Modelled from the spec: the attachment of an [in_message] to a received
    buffer, done by [read_message] with [ipc.hpp], which is not part of the
    sources at hand.  "Attach to a complete buffer; set offset past length
    field." *)
Definition attach (buf : list byte) : in_message :=
  mk_in_message (mk_message buf true) (Z.of_nat L).

End Framing.

(** ** client_socket::connect_proc *)

Module Socket.

(** What [connect_proc] does to the outside world. *)
Inductive event : Type :=
| connect_call
| sleep_for_seconds (n : Z)
| set_non_blocking_mode_call.

(** The socket object ([m_socket], [m_ok]) and the part of the process
    state the procedure reads and writes: how many times [connect] was
    called, the pending socket error, and the calls made so far. *)
Record world : Type := mk_world {
  m_socket : Z;
  m_ok : bool;
  connects : nat;
  socket_error : Z;
  events : list event
}.

Definition record (e : event) (w : world) : world :=
  mk_world (m_socket w) (m_ok w) (connects w) (socket_error w)
           (events w ++ [e]).

(** [fail_status<exception_t>(m_ok, ...)], here on the flag of the socket. *)
Definition fail_status {A} (e : exn) : M world A :=
  fun w =>
    Throws e (mk_world (m_socket w) false (connects w) (socket_error w)
                       (events w)).

Section ConnectProc.

(** Values of the system headers. *)
Variables EAGAIN ECONNREFUSED EINPROGRESS INVALID_SOCKET : Z.

(** The environment: the [k]-th call of [connect] succeeds ([None]) or
    fails with an error code, and [set_non_blocking_mode] succeeds or
    not. *)
Variable connect_outcome : nat -> option Z.
Variable non_blocking_ok : bool.

(** [connect(m_socket, address, size)] *)
Definition connect : M world Z :=
  fun w =>
    let w' := record connect_call w in
    match connect_outcome (connects w) with
    | None =>
        Returns 0
          (mk_world (m_socket w') (m_ok w') (S (connects w'))
                    (socket_error w') (events w'))
    | Some err =>
        Returns (-1)
          (mk_world (m_socket w') (m_ok w') (S (connects w')) err
                    (events w'))
    end.

Definition get_socket_error : M world Z := gets socket_error.

(** [std::this_thread::sleep_for(std::chrono::seconds(n))] *)
Definition sleep_for (n : Z) : M world unit :=
  modify (record (sleep_for_seconds n)).

Definition set_non_blocking_mode : M world bool :=
  fun w => Returns non_blocking_ok (record set_non_blocking_mode_call w).

(** The test of the [#else] branch (the one compiled outside Windows). *)
Definition is_retry_error (err_code : Z) : bool :=
  (err_code =? EAGAIN) || (err_code =? ECONNREFUSED)
  || (err_code =? EINPROGRESS).

(** The [for] loop, from the value [attempt] of its counter; it
    returns the counter at the exit.  [remaining] is
    [max_attempts_count - attempt], so the test
    [attempt < max_attempts_count] is [remaining <> 0]. *)
Fixpoint connect_loop (remaining : nat) (attempt : Z) : M world Z :=
  match remaining with
  | O => ret attempt
  | S remaining' =>
      rc <- connect ;;
      if rc <? 0 then
        err_code <- get_socket_error ;;
        (if is_retry_error err_code
         then sleep_for 1
         else fail_status active_socket_prepare_exception) ;;
        connect_loop remaining' (attempt + 1)
      else ret attempt
  end.

(** [void client_socket::connect_proc(const sockaddr* address, size_t size)] *)
Definition connect_proc : M world unit :=
  s <- gets m_socket ;;
  when (INVALID_SOCKET =? s)
       (fail_status active_socket_prepare_exception) ;;
  let max_attempts_count := 10 in
  attempt <- connect_loop (Z.to_nat max_attempts_count) 0 ;;
  when (attempt =? max_attempts_count)
       (fail_status active_socket_prepare_exception) ;;
  ok <- set_non_blocking_mode ;;
  when (negb ok) (fail_status active_socket_prepare_exception).

(** [k] rounds of a failed [connect] followed by the pause. *)
Fixpoint retry_rounds (k : nat) : list event :=
  match k with
  | O => []
  | S k' => connect_call :: sleep_for_seconds 1 :: retry_rounds k'
  end.

End ConnectProc.

End Socket.

(** ** Appends by kind of element *)

Section Appends.

Variable L : nat.
Variable max_size : Z.
Variable use_tags : bool.

(** The two appends, by the kind of element, as [extract] for the
    extractions. *)
Definition append (e : element) (bytes : list byte) : M out_message unit :=
  match e with
  | a_string => out_string L max_size use_tags bytes
  | a_blob => out_blob L max_size use_tags bytes
  end.

(** The constant [delta] of the append. *)
Definition out_delta (e : element) : Z :=
  match e with
  | a_string => out_string_delta use_tags
  | a_blob => out_blob_delta use_tags
  end.

(** The bytes an append puts behind the buffer. *)
Definition element_bytes (e : element) (bytes : list byte) : list byte :=
  match e with
  | a_string => tag_bytes use_tags type_tag.str ++ bytes ++ [x00]
  | a_blob =>
      tag_bytes use_tags type_tag.blob
        ++ le_encode L (wrap L (Z.of_nat (length bytes))) ++ bytes
  end.

End Appends.

(** ** message::to_string *)

(** [const char* message::to_string(type_tag t)]: the [switch] over the
    enumerators, in the order of the source; [None] stands for a value that
    is no enumerator, which takes the [default] branch. *)
Definition to_string (t : option type_tag.t) : string :=
  match t with
  | Some type_tag.u32 => "u32"
  | Some type_tag.i32 => "i32"
  | Some type_tag.u64 => "u64"
  | Some type_tag.i64 => "i64"
  | Some type_tag.fp64 => "fp64"
  | Some type_tag.str => "str"
  | Some type_tag.chr => "chr"
  | Some type_tag.remote_ptr => "remote_ptr"
  | Some type_tag.blob => "blob"
  | None => "unknown"
  end%string.

(** ** socket::close, server_socket::bind_proc, unix_server_socket::close *)

Module Server.

(** The system calls these functions make. *)
Inductive syscall : Type :=
| close_call (fd : Z)
| set_non_blocking_mode_call (fd : Z)
| bind_call (fd : Z)
| listen_call (fd backlog : Z)
| unlink_call (path : list byte).

(** A listening socket: [m_socket] and [m_ok] of [class socket], [m_link] of
    [unix_server_socket] (empty for a TCP socket), and the system calls made
    so far. *)
Record server_socket : Type := mk_server_socket {
  m_socket : Z;
  m_ok : bool;
  m_link : list byte;
  calls : list syscall
}.

Definition record (c : syscall) (s : server_socket) : server_socket :=
  mk_server_socket (m_socket s) (m_ok s) (m_link s) (calls s ++ [c]).

(** The exceptions of the socket classes that [bind_proc] can raise. *)
Inductive socket_exn : Type :=
| passive_socket_prepare_exception.

(** How a call ends: it returns, or it raises with the object as it is at
    the [throw]. *)
Inductive completion : Type :=
| returned (s : server_socket)
| raised (e : socket_exn) (s : server_socket).

(** The object a call leaves behind. *)
Definition final (c : completion) : server_socket :=
  match c with
  | returned s => s
  | raised _ s => s
  end.

(** [fail_status<exception_t>(m_ok, ...)]: clear [m_ok], then throw. *)
Definition fail_status (e : socket_exn) (s : server_socket) : completion :=
  raised e (mk_server_socket (m_socket s) false (m_link s) (calls s)).

Section ServerSocket.

(** The value of the system headers. *)
Variable INVALID_SOCKET : Z.

(** The environment: what [set_non_blocking_mode], [bind] and [listen]
    return. *)
Variable non_blocking_ok : bool.
Variables bind_result listen_result : Z.

(** [void socket::close() noexcept] *)
Definition close (s : server_socket) : server_socket :=
  if negb (m_socket s =? INVALID_SOCKET) then
    mk_server_socket INVALID_SOCKET false (m_link s)
                     (calls s ++ [close_call (m_socket s)])
  else s.

(** [void unix_server_socket::close() noexcept] *)
Definition unix_close (s : server_socket) : server_socket :=
  let s' := close s in
  if negb (Nat.eqb (length (m_link s')) 0)
  then record (unlink_call (m_link s')) s'
  else s'.

(** [void server_socket::bind_proc(const sockaddr* address, size_t size)] *)
Definition bind_proc (s : server_socket) : completion :=
  if INVALID_SOCKET =? m_socket s
  then fail_status passive_socket_prepare_exception s
  else
    let s1 := record (set_non_blocking_mode_call (m_socket s)) s in
    if negb non_blocking_ok
    then fail_status passive_socket_prepare_exception s1
    else
      let s2 := record (bind_call (m_socket s)) s1 in
      if negb (bind_result =? 0)
      then fail_status passive_socket_prepare_exception s2
      else
        let s3 := record (listen_call (m_socket s) 100) s2 in
        if negb (listen_result =? 0)
        then fail_status passive_socket_prepare_exception s3
        else returned s3.

End ServerSocket.

End Server.

(** ** Example frames

    Frames at the defaults of the library ([L = 4], a limit of 64 KiB,
    tagged mode), as a peer could send them. *)

(** Modelled from the spec: the defaults of [ipc.hpp], which is not part of the
    sources at hand; section 6 gives them as [L] = 4 and [MAX] = 64 KiB. *)
Definition default_L : nat := 4.
Definition default_max_size : Z := 65536.

(** A blob that declares 7 bytes where 1 is left. *)
Definition overlong_blob_frame : list byte :=
  le_encode default_L 10 ++ [tag_code type_tag.blob]
    ++ le_encode default_L 7 ++ [x01].

(** A blob of the three bytes "abc". *)
Definition blob_frame : list byte :=
  le_encode default_L 12 ++ [tag_code type_tag.blob]
    ++ le_encode default_L 3 ++ [x61; x62; x63].

(** A blob of no byte. *)
Definition empty_blob_frame : list byte :=
  le_encode default_L 9 ++ [tag_code type_tag.blob] ++ le_encode default_L 0.

(** The tag of a string and nothing behind it. *)
Definition lone_string_tag_frame : list byte :=
  le_encode default_L 5 ++ [tag_code type_tag.str].

(** The string "abc" without its terminator. *)
Definition unterminated_string_frame : list byte :=
  le_encode default_L 8 ++ [tag_code type_tag.str; x61; x62; x63].

(** The character 'a'. *)
Definition chr_frame : list byte :=
  le_encode default_L 6 ++ [tag_code type_tag.chr; x61].

(** The unsigned 32-bit integer 7. *)
Definition u32_frame : list byte :=
  le_encode default_L 9 ++ [tag_code type_tag.u32] ++ le_encode 4 7.

(** A message whose fail flag is set. *)
Definition failed_message : message := mk_message (le_encode default_L 4) false.

(** A connection that is refused three times (error 111) and then made. *)
Definition refused_three_times (n : nat) : option Z :=
  if (n <? 3)%nat then Some 111 else None.

(** A socket on which nothing was done yet. *)
Definition new_socket : Socket.world := Socket.mk_world 3 true 0 0 [].

(** A message that holds the string "ab" already: the buffer of 8 bytes
    with the prefix the string operator left, 12. *)
Definition message_with_string : out_message :=
  mk_message (le_encode default_L 12
                ++ [tag_code type_tag.str; x61; x62; x00]) true.

(** The strings "ab" and "c" in a row. *)
Definition two_strings_frame : list byte :=
  le_encode default_L 11
    ++ [tag_code type_tag.str; x61; x62; x00]
    ++ [tag_code type_tag.str; x63; x00].

(** A listening unix socket with descriptor 3 on the path "s". *)
Definition listening_socket : Server.server_socket :=
  Server.mk_server_socket 3 true [x73] [].

(** [message_with_string] after the append of the string "c". *)
Definition message_with_two_strings : out_message :=
  mk_message (le_encode default_L 27
                ++ [tag_code type_tag.str; x61; x62; x00]
                ++ [tag_code type_tag.str; x63; x00]) true.

(** * Properties *)

(** ** Encoding of length fields *)

Lemma byte_to_Z_range (b : byte) : 0 <= byte_to_Z b < 256.
Proof.
  unfold byte_to_Z. pose proof (Byte.to_N_bounded b). lia.
Qed.

Lemma byte_to_of_Z (z : Z) : byte_to_Z (byte_of_Z z) = z mod 256.
Proof.
  unfold byte_to_Z, byte_of_Z.
  assert (Hr : 0 <= z mod 256 < 256) by (apply Z.mod_pos_bound; lia).
  destruct (Byte.of_N (Z.to_N (z mod 256))) as [b|] eqn:E.
  - apply Byte.to_of_N in E. rewrite E. lia.
  - apply Byte.of_N_None_iff in E. lia.
Qed.

Lemma byte_of_to_Z (b : byte) : byte_of_Z (byte_to_Z b) = b.
Proof.
  unfold byte_of_Z. pose proof (byte_to_Z_range b) as Hr.
  rewrite Z.mod_small by lia. unfold byte_to_Z.
  rewrite N2Z.id, Byte.of_to_N. reflexivity.
Qed.

Lemma length_le_encode (n : nat) (v : Z) : length (le_encode n v) = n.
Proof.
  revert v. induction n as [|n IH]; intros v; simpl; [reflexivity|].
  now rewrite IH.
Qed.

Lemma le_decode_encode (n : nat) (v : Z) :
  le_decode (le_encode n v) = wrap n v.
Proof.
  unfold wrap. revert v. induction n as [|n IH]; intros v.
  - simpl. now rewrite Z.mod_1_r.
  - cbn [le_encode le_decode]. rewrite byte_to_of_Z, IH.
    replace (8 * Z.of_nat (S n)) with (8 + 8 * Z.of_nat n) by lia.
    rewrite Z.pow_add_r by lia.
    change (2 ^ 8) with 256.
    rewrite Z.rem_mul_r by (try lia; apply Z.pow_pos_nonneg; lia).
    reflexivity.
Qed.

Lemma le_decode_range (bs : list byte) :
  0 <= le_decode bs < 2 ^ (8 * Z.of_nat (length bs)).
Proof.
  induction bs as [|b bs IH].
  - simpl. lia.
  - cbn [le_decode length].
    replace (8 * Z.of_nat (S (length bs))) with (8 + 8 * Z.of_nat (length bs))
      by lia.
    rewrite Z.pow_add_r by lia. change (2 ^ 8) with 256.
    pose proof (byte_to_Z_range b). nia.
Qed.

Lemma wrap_small (n : nat) (v : Z) :
  0 <= v < 2 ^ (8 * Z.of_nat n) -> wrap n v = v.
Proof. intros Hv. unfold wrap. now apply Z.mod_small. Qed.

Lemma wrap_size_t_small (v : Z) : 0 <= v < 2 ^ 64 -> wrap_size_t v = v.
Proof. intros Hv. unfold wrap_size_t. now apply Z.mod_small. Qed.

(** A length type of at least one byte can represent its own size. *)
Lemma size_fits_length_type (n : nat) :
  (1 <= n)%nat -> 0 <= Z.of_nat n < 2 ^ (8 * Z.of_nat n).
Proof.
  intros Hn. split; [lia|].
  assert (H : forall k, 0 <= k -> k < 2 ^ k).
  { intros k Hk. apply Z.pow_gt_lin_r; lia. }
  specialize (H (8 * Z.of_nat n)). lia.
Qed.

(** ** Slices of a buffer *)

Lemma slice_length (buf bs : list byte) (off count : Z) :
  slice buf off count = Some bs -> Z.of_nat (length bs) = count.
Proof.
  unfold slice.
  destruct ((0 <=? off) && (0 <=? count)
            && (off + count <=? Z.of_nat (length buf))) eqn:E;
    [|discriminate].
  intros [= <-].
  apply andb_prop in E as [E E3]. apply andb_prop in E as [E1 E2].
  rewrite length_firstn, length_skipn. lia.
Qed.

Lemma slice_in_bounds (buf bs : list byte) (off count : Z) :
  slice buf off count = Some bs ->
  0 <= off /\ 0 <= count /\ off + count <= Z.of_nat (length buf).
Proof.
  unfold slice.
  destruct ((0 <=? off) && (0 <=? count)
            && (off + count <=? Z.of_nat (length buf))) eqn:E;
    [|discriminate].
  intros _.
  apply andb_prop in E as [E E3]. apply andb_prop in E as [E1 E2]. lia.
Qed.

Lemma slice_inside (buf : list byte) (off count : Z) :
  0 <= off -> 0 <= count -> off + count <= Z.of_nat (length buf) ->
  slice buf off count
  = Some (firstn (Z.to_nat count) (skipn (Z.to_nat off) buf)).
Proof.
  intros H1 H2 H3. unfold slice.
  replace (0 <=? off) with true by (symmetry; apply Z.leb_le; lia).
  replace (0 <=? count) with true by (symmetry; apply Z.leb_le; lia).
  replace (off + count <=? Z.of_nat (length buf)) with true
    by (symmetry; apply Z.leb_le; lia).
  reflexivity.
Qed.

Lemma slice_app_middle (pre bs post : list byte) :
  slice (pre ++ bs ++ post) (Z.of_nat (length pre)) (Z.of_nat (length bs))
  = Some bs.
Proof.
  rewrite slice_inside by (rewrite ?length_app; lia).
  rewrite !Nat2Z.id. f_equal.
  rewrite skipn_app, Nat.sub_diag, skipn_all. simpl.
  rewrite firstn_app, Nat.sub_diag, firstn_all. simpl.
  now rewrite app_nil_r.
Qed.

Lemma slice_app_head (bs post : list byte) :
  slice (bs ++ post) 0 (Z.of_nat (length bs)) = Some bs.
Proof. exact (slice_app_middle [] bs post). Qed.

Lemma slice_tail (buf region : list byte) (b : byte) (off n : Z) :
  slice buf off n = Some (b :: region) ->
  slice buf (off + 1) (n - 1) = Some region.
Proof.
  intros Hslice.
  pose proof (slice_in_bounds _ _ _ _ Hslice) as (H1 & H2 & H3).
  pose proof (slice_length _ _ _ _ Hslice) as Hlen. cbn [length] in Hlen.
  rewrite slice_inside in Hslice by lia. injection Hslice as Hslice.
  rewrite slice_inside by lia. f_equal.
  replace (Z.to_nat (off + 1)) with (1 + Z.to_nat off)%nat by lia.
  rewrite <- skipn_skipn.
  replace (Z.to_nat n) with (S (Z.to_nat (n - 1))) in Hslice by lia.
  destruct (skipn (Z.to_nat off) buf) as [|x l]; [discriminate|].
  cbn in Hslice. injection Hslice as _ Hslice. exact Hslice.
Qed.

(** ** memchr *)

Lemma byte_eqb_refl (b : byte) : Byte.eqb b b = true.
Proof. exact (Byte.byte_dec_lb eq_refl). Qed.


Lemma memchr_found (s rest : list byte) (c : byte) (n : nat) :
  Forall (fun b => b <> c) s -> (length s < n)%nat ->
  memchr (s ++ c :: rest) c n = Some (Some (Z.of_nat (length s))).
Proof.
  intros Hs. revert n. induction Hs as [|b s Hb Hs IH]; intros n Hn.
  - destruct n as [|n]; [simpl in Hn; lia|].
    simpl. now rewrite (Byte.byte_dec_lb eq_refl).
  - destruct n as [|n]; [simpl in Hn; lia|].
    cbn [app memchr length].
    destruct (Byte.eqb b c) eqn:E.
    + apply Byte.byte_dec_bl in E. contradiction.
    + rewrite IH by (simpl in Hn; lia). do 2 f_equal. lia.
Qed.

Lemma memchr_absent (s rest : list byte) (c : byte) :
  Forall (fun b => b <> c) s ->
  memchr (s ++ rest) c (length s) = Some None.
Proof.
  intros Hs. induction Hs as [|b s Hb Hs IH]; [reflexivity|].
  cbn [app memchr length].
  destruct (Byte.eqb b c) eqn:E.
  - apply Byte.byte_dec_bl in E. contradiction.
  - now rewrite IH.
Qed.

(** A match lies inside the scanned range and inside the buffer. *)
Lemma memchr_position (p : list byte) (c : byte) (n : nat) (k : Z) :
  memchr p c n = Some (Some k) ->
  0 <= k < Z.of_nat n /\ k < Z.of_nat (length p).
Proof.
  revert n k. induction p as [|b p IH]; intros n k.
  - destruct n; simpl; discriminate.
  - destruct n as [|n]; [simpl; discriminate|].
    cbn [memchr length]. destruct (Byte.eqb b c).
    + intros [= <-]. lia.
    + destruct (memchr p c n) as [[j|]|] eqn:E; try discriminate.
      intros [= <-]. specialize (IH n j E). lia.
Qed.

Lemma memchr_absent_slice (buf region : list byte) (c : byte) (off n : Z) :
  slice buf off n = Some region ->
  Forall (fun b => b <> c) region ->
  memchr (skipn (Z.to_nat off) buf) c (Z.to_nat n) = Some None.
Proof.
  intros Hslice Hregion.
  pose proof (slice_in_bounds _ _ _ _ Hslice) as (H1 & H2 & H3).
  pose proof (slice_length _ _ _ _ Hslice) as Hlen.
  rewrite slice_inside in Hslice by lia. injection Hslice as Hslice.
  rewrite <- (firstn_skipn (Z.to_nat n) (skipn (Z.to_nat off) buf)).
  rewrite Hslice.
  replace (Z.to_nat n) with (length region) by lia.
  now apply memchr_absent.
Qed.

(** ** Appending to an out_message *)

Section OutFacts.

Variable L : nat.
Variable max_size : Z.
Variable use_tags : bool.

Lemma length_field_range (buf : list byte) (off v : Z) :
  length_field L buf off = Some v -> 0 <= v < 2 ^ (8 * Z.of_nat L).
Proof.
  unfold length_field.
  destruct (slice buf off (Z.of_nat L)) as [bs|] eqn:E; [|discriminate].
  intros [= <-]. apply slice_length in E.
  pose proof (le_decode_range bs) as Hr.
  replace (Z.of_nat L) with (Z.of_nat (length bs)) by exact E. exact Hr.
Qed.

Lemma length_field_app (buf more : list byte) (off v : Z) :
  length_field L buf off = Some v ->
  length_field L (buf ++ more) off = Some v.
Proof.
  unfold length_field.
  destruct (slice buf off (Z.of_nat L)) as [bs|] eqn:E; [|discriminate].
  intros [= <-]. pose proof (slice_in_bounds _ _ _ _ E) as (H1 & H2 & H3).
  rewrite slice_inside in E by lia. injection E as <-.
  rewrite slice_inside by (rewrite ?length_app; lia).
  cbn [option_map]. do 2 f_equal.
  rewrite skipn_app, firstn_app, length_skipn.
  replace (Z.to_nat (Z.of_nat L) - (length buf - Z.to_nat off))%nat
    with 0%nat by lia.
  simpl. now rewrite app_nil_r.
Qed.

Lemma length_field_encode (v : Z) (rest : list byte) :
  length_field L (le_encode L v ++ rest) 0 = Some (wrap L v).
Proof.
  unfold length_field.
  rewrite <- (length_le_encode L v) at 2.
  rewrite slice_app_head. cbn [option_map].
  now rewrite le_decode_encode.
Qed.

Lemma length_field_in_bounds (buf : list byte) (off v : Z) :
  length_field L buf off = Some v ->
  0 <= off /\ off + Z.of_nat L <= Z.of_nat (length buf).
Proof.
  unfold length_field.
  destruct (slice buf off (Z.of_nat L)) as [bs|] eqn:E; [|discriminate].
  intros _. apply slice_in_bounds in E. lia.
Qed.

Lemma out_delta_range :
  0 <= out_string_delta use_tags <= 2 /\ 0 <= out_blob_delta use_tags <= 1.
Proof. unfold out_string_delta, out_blob_delta. destruct use_tags; lia. Qed.

(** The step that updates the length prefix. *)
Lemma add_to_length_returns (m : out_message) (cur v : Z) :
  length_field L (m_buffer m) 0 = Some cur ->
  add_to_length L v m
  = Returns tt
      (mk_message (le_encode L (wrap L (cur + wrap L v))
                     ++ skipn L (m_buffer m)) (m_ok m)).
Proof.
  intros Hcur. unfold add_to_length, bind, load_length. cbn.
  now rewrite Hcur.
Qed.

Lemma out_string_returns (s : list byte) (m : out_message) (used : Z) :
  m_ok m = true ->
  length_field L (m_buffer m) 0 = Some used ->
  used + Z.of_nat (length s) + out_string_delta use_tags < 2 ^ 64 ->
  used + Z.of_nat (length s) + out_string_delta use_tags <= max_size ->
  out_string L max_size use_tags s m
  = Returns tt
      (mk_message
         (le_encode L
            (wrap L (used + wrap L (used + Z.of_nat (length s)
                                    + out_string_delta use_tags)))
            ++ skipn L (m_buffer m ++ tag_bytes use_tags type_tag.str
                          ++ s ++ [x00]))
         true).
Proof.
  intros Hok Hused Hfit Hmax.
  pose proof (length_field_range _ _ _ Hused) as Hr.
  unfold out_string, bind, check_status, load_length.
  cbn -[out_string_delta].
  rewrite Hok, Hused. cbn -[out_string_delta out_blob_delta].
  pose proof out_delta_range as Hd.
  rewrite wrap_size_t_small by lia.
  replace (max_size <? _) with false by (symmetry; apply Z.ltb_ge; lia).
  unfold tag_bytes.
  destruct use_tags; cbn; unfold bind; cbn;
    (erewrite add_to_length_returns;
     [ cbn; rewrite Hok, <- ?app_assoc; reflexivity
     | cbn; rewrite <- ?app_assoc; now apply length_field_app ]).
Qed.

Lemma out_string_throws (s : list byte) (m : out_message) (used : Z) :
  m_ok m = true ->
  length_field L (m_buffer m) 0 = Some used ->
  used + Z.of_nat (length s) + out_string_delta use_tags < 2 ^ 64 ->
  max_size < used + Z.of_nat (length s) + out_string_delta use_tags ->
  out_string L max_size use_tags s m
  = Throws message_overflow_exception (mk_message (m_buffer m) false).
Proof.
  intros Hok Hused Hfit Hmax.
  pose proof (length_field_range _ _ _ Hused) as Hr.
  unfold out_string, bind, check_status, load_length.
  cbn -[out_string_delta].
  rewrite Hok, Hused. cbn -[out_string_delta out_blob_delta].
  pose proof out_delta_range as Hd.
  rewrite wrap_size_t_small by lia.
  replace (max_size <? _) with true by (symmetry; apply Z.ltb_lt; lia).
  reflexivity.
Qed.

Lemma out_blob_returns (blob : list byte) (m : out_message) (used : Z) :
  m_ok m = true ->
  length_field L (m_buffer m) 0 = Some used ->
  used + Z.of_nat (length blob) + out_blob_delta use_tags < 2 ^ 64 ->
  used + Z.of_nat (length blob) + out_blob_delta use_tags <= max_size ->
  out_blob L max_size use_tags blob m
  = Returns tt
      (mk_message
         (le_encode L
            (wrap L (used + wrap L (used + Z.of_nat (length blob)
                                    + out_blob_delta use_tags)))
            ++ skipn L (m_buffer m ++ tag_bytes use_tags type_tag.blob
                          ++ le_encode L (wrap L (Z.of_nat (length blob)))
                          ++ blob))
         true).
Proof.
  intros Hok Hused Hfit Hmax.
  pose proof (length_field_range _ _ _ Hused) as Hr.
  unfold out_blob, bind, check_status, load_length.
  cbn -[out_blob_delta].
  rewrite Hok, Hused. cbn -[out_string_delta out_blob_delta].
  pose proof out_delta_range as Hd.
  rewrite wrap_size_t_small by lia.
  replace (max_size <? _) with false by (symmetry; apply Z.ltb_ge; lia).
  unfold tag_bytes.
  destruct use_tags; cbn; unfold bind; cbn;
    (erewrite add_to_length_returns;
     [ cbn; rewrite Hok, <- ?app_assoc; reflexivity
     | cbn; rewrite <- ?app_assoc; now apply length_field_app ]).
Qed.

Lemma out_blob_throws (blob : list byte) (m : out_message) (used : Z) :
  m_ok m = true ->
  length_field L (m_buffer m) 0 = Some used ->
  used + Z.of_nat (length blob) + out_blob_delta use_tags < 2 ^ 64 ->
  max_size < used + Z.of_nat (length blob) + out_blob_delta use_tags ->
  out_blob L max_size use_tags blob m
  = Throws message_overflow_exception (mk_message (m_buffer m) false).
Proof.
  intros Hok Hused Hfit Hmax.
  pose proof (length_field_range _ _ _ Hused) as Hr.
  unfold out_blob, bind, check_status, load_length.
  cbn -[out_blob_delta].
  rewrite Hok, Hused. cbn -[out_string_delta out_blob_delta].
  pose proof out_delta_range as Hd.
  rewrite wrap_size_t_small by lia.
  replace (max_size <? _) with true by (symmetry; apply Z.ltb_lt; lia).
  reflexivity.
Qed.

Lemma fresh_length_field :
  (1 <= L)%nat ->
  length_field L (m_buffer (fresh_out_message L)) 0 = Some (Z.of_nat L).
Proof.
  intros HL. cbn [fresh_out_message m_buffer].
  rewrite <- (app_nil_r (le_encode L (Z.of_nat L))).
  rewrite length_field_encode, wrap_small by now apply size_fits_length_type.
  reflexivity.
Qed.

End OutFacts.

(** ** The length prefix and the size limit of an out_message *)

Section LengthPrefix.

Variable L : nat.
Variable max_size : Z.
Variable use_tags : bool.

Lemma length_tag_bytes (t : type_tag.t) :
  Z.of_nat (length (tag_bytes use_tags t)) = out_blob_delta use_tags.
Proof. unfold tag_bytes, out_blob_delta. now destruct use_tags. Qed.

Lemma out_string_delta_eq :
  out_string_delta use_tags = out_blob_delta use_tags + 1.
Proof. unfold out_string_delta, out_blob_delta. now destruct use_tags. Qed.

(** What a successful append of a string does to a message whose length
    prefix is its buffer size [used]: the buffer grows to
    [used + len + delta] bytes, and the prefix becomes
    [used + (used + len + delta)]. *)
Lemma out_string_prefix_and_size
      (s : list byte) (m : out_message) (used new_used : Z) :
  Z.of_nat (length (m_buffer m)) = used ->
  used + Z.of_nat (length s) + out_string_delta use_tags = new_used ->
  m_ok m = true ->
  length_field L (m_buffer m) 0 = Some used ->
  new_used <= max_size -> max_size < 2 ^ 64 ->
  used + new_used < 2 ^ (8 * Z.of_nat L) ->
  exists m',
    out_string L max_size use_tags s m = Returns tt m'
    /\ m_ok m' = true
    /\ Z.of_nat (length (m_buffer m')) = new_used
    /\ length_field L (m_buffer m') 0 = Some (used + new_used).
Proof.
  intros <- <- Hok Hused Hmax H64 Hfit.
  pose proof (length_field_in_bounds _ _ _ _ Hused) as [_ Hlen].
  pose proof (length_tag_bytes type_tag.str) as Htag.
  pose proof out_string_delta_eq as Hd.
  remember (2 ^ (8 * Z.of_nat L)) as bound eqn:Hb.
  eexists. split;
    [apply out_string_returns with (used := Z.of_nat (length (m_buffer m)));
     try assumption; clear Hb; lia|].
  cbn [m_buffer m_ok]. split; [reflexivity|]. split.
  - clear Hb. rewrite length_app, length_le_encode, length_skipn, !length_app.
    cbn [length]. lia.
  - rewrite length_field_encode.
    unfold wrap. rewrite <- Hb. clear Hb.
    rewrite (Z.mod_small (_ + _ + _)) by lia.
    rewrite !(Z.mod_small (_ + (_ + _ + _))) by lia. reflexivity.
Qed.

(** The same for a blob: the buffer grows by the tag, the length field
    and the payload, while the operator counts [len + delta] only. *)
Lemma out_blob_prefix_and_size
      (blob : list byte) (m : out_message) (used new_used : Z) :
  Z.of_nat (length (m_buffer m)) = used ->
  used + Z.of_nat (length blob) + out_blob_delta use_tags = new_used ->
  m_ok m = true ->
  length_field L (m_buffer m) 0 = Some used ->
  new_used <= max_size -> max_size < 2 ^ 64 ->
  used + new_used < 2 ^ (8 * Z.of_nat L) ->
  exists m',
    out_blob L max_size use_tags blob m = Returns tt m'
    /\ m_ok m' = true
    /\ Z.of_nat (length (m_buffer m')) = new_used + Z.of_nat L
    /\ length_field L (m_buffer m') 0 = Some (used + new_used).
Proof.
  intros <- <- Hok Hused Hmax H64 Hfit.
  pose proof (length_field_in_bounds _ _ _ _ Hused) as [_ Hlen].
  pose proof (length_tag_bytes type_tag.blob) as Htag.
  remember (2 ^ (8 * Z.of_nat L)) as bound eqn:Hb.
  eexists. split;
    [apply out_blob_returns with (used := Z.of_nat (length (m_buffer m)));
     try assumption; clear Hb; lia|].
  cbn [m_buffer m_ok]. split; [reflexivity|]. split.
  - clear Hb. rewrite length_app, length_le_encode, length_skipn, !length_app.
    rewrite length_le_encode. lia.
  - rewrite length_field_encode.
    unfold wrap. rewrite <- Hb. clear Hb.
    rewrite (Z.mod_small (_ + _ + _)) by lia.
    rewrite !(Z.mod_small (_ + (_ + _ + _))) by lia. reflexivity.
Qed.

End LengthPrefix.

(** C1, at the defaults ([L = 4], [MAX = 64 KiB], tagged mode): appending
    the string "abc" to a new message succeeds and leaves a buffer of 9
    bytes whose length prefix reads 13.  The specification asks for a prefix
    equal to the buffer size; [operator<<] adds [new_used] to the prefix
    where it should store it. *)
Theorem out_string_prefix_differs_from_size :
  exists m',
    out_string default_L default_max_size true (list_byte_of_string "abc")
      (fresh_out_message default_L)
    = Returns tt m'
    /\ Z.of_nat (length (m_buffer m')) = 9
    /\ length_field default_L (m_buffer m') 0 = Some 13.
Proof.
  eexists. split; [vm_compute; reflexivity|]. split; reflexivity.
Qed.

(** C4, at the defaults ([L = 4], [MAX = 64 KiB], tagged mode): appending a
    blob of 65528 bytes to a new message succeeds, the fail flag stays clear,
    and the buffer holds 65537 bytes, one more than [MAX].  The
    specification asks for message-overflow; [operator<<] leaves the length
    field of the blob out of [new_used]. *)
Theorem out_blob_exceeds_max_size :
  exists m',
    out_blob default_L default_max_size true (repeat x00 (Z.to_nat 65528))
      (fresh_out_message default_L)
    = Returns tt m'
    /\ m_ok m' = true
    /\ Z.of_nat (length (m_buffer m')) = 65537
    /\ default_max_size < Z.of_nat (length (m_buffer m')).
Proof.
  destruct (out_blob_prefix_and_size default_L default_max_size true
              (repeat x00 (Z.to_nat 65528)) (fresh_out_message default_L)
              4 65533)
    as (m' & Hrun & Hok & Hlen & _);
    try reflexivity; try (unfold default_max_size, default_L; cbn; lia).
  exists m'. unfold default_max_size.
  change (Z.of_nat default_L) with 4 in Hlen.
  repeat split; try assumption; lia.
Qed.

(** ** Running an operator: tactics *)

(** Unfold an operator and the monad down to the tests it makes. *)
Ltac run_op :=
  cbv beta iota zeta delta
    [out_string out_blob add_to_length push_back insert_end clear
     in_string in_blob extract expect_tag bind check_status fail_status
     load_length load_byte load_bytes find_byte set_offset assign gets
     modify throw when ret lift_option undefined offset extraction
     fst snd m_offset base m_buffer m_ok the_message with_message
     Cursor_message Cursor_in_message Cursor_extraction set_ok set_buffer
     negb].

(** Follow every path through the operator. *)
Ltac split_op :=
  repeat (run_op;
          match goal with
          | |- context [match ?x with Some _ => _ | None => _ end] =>
              lazymatch x with
              | context [match _ with _ => _ end] => fail
              | _ => destruct x eqn:?
              end
          | |- context [if ?c then _ else _] =>
              lazymatch c with
              | context [if _ then _ else _] => fail
              | context [match _ with _ => _ end] => fail
              | _ => destruct c eqn:?
              end
          end).

(** ** Extraction from an in_message *)

Section InFacts.

Variable L : nat.
Variable max_size : Z.
Variable use_tags : bool.

(** The length type is narrower than [size_t]: no sum of an offset and a
    length wraps around. *)
Hypothesis L_narrow : (L < 8)%nat.

Lemma length_field_narrow (buf : list byte) (off v : Z) :
  length_field L buf off = Some v -> 0 <= v < 72057594037927936.
Proof.
  intros Hv. apply length_field_range in Hv.
  assert (Hb : 2 ^ (8 * Z.of_nat L) <= 2 ^ 56)
    by (apply Z.pow_le_mono_r; lia).
  change (2 ^ 56) with 72057594037927936 in Hb.
  remember (2 ^ (8 * Z.of_nat L)) as bound. lia.
Qed.

(** Collect what the tests passed on a path say about the numbers. *)
Ltac numeric_facts :=
  repeat match goal with
    | H : length_field L _ _ = Some ?v |- _ =>
        lazymatch goal with
        | _ : 0 <= v < 72057594037927936 |- _ => fail
        | _ => pose proof (length_field_narrow _ _ _ H)
        end
    | H : memchr ?p ?c ?n = Some (Some ?k) |- _ =>
        lazymatch goal with
        | _ : 0 <= k < Z.of_nat n /\ _ |- _ => fail
        | _ => pose proof (memchr_position _ _ _ _ H)
        end
    | H : slice ?b ?o ?c = Some ?r |- _ =>
        lazymatch goal with
        | _ : Z.of_nat (length r) = c |- _ => fail
        | _ => pose proof (slice_length _ _ _ _ H)
        end
    | H : (_ <? _) = true |- _ => apply Z.ltb_lt in H
    | H : (_ <? _) = false |- _ => apply Z.ltb_ge in H
    | H : (_ <=? _) = true |- _ => apply Z.leb_le in H
    | H : (_ <=? _) = false |- _ => apply Z.leb_gt in H
    | H : (_ =? _) = true |- _ => apply Z.eqb_eq in H
    | H : (_ =? _) = false |- _ => apply Z.eqb_neq in H
    | H : negb _ = true |- _ => apply negb_true_iff in H
    | H : negb _ = false |- _ => apply negb_false_iff in H
    | H : andb _ _ = true |- _ => apply andb_prop in H; destruct H
    | H : andb _ _ = false |- _ => apply andb_false_iff in H; destruct H
    end.

(** Drop the [size_t] wrap-around where the value is in range. *)
Ltac unwrap :=
  repeat match goal with
    | H : context [wrap_size_t ?x] |- _ =>
        rewrite (wrap_size_t_small x) in H by lia
    | |- context [wrap_size_t ?x] =>
        rewrite (wrap_size_t_small x) by lia
    end.

Ltac settle := repeat (progress (numeric_facts; unwrap)).

(** The offset after an extraction, whatever its outcome. *)
Lemma extract_offsets
      (e : element) (m : in_message) (dest : list byte) (size : Z) :
  length_field L (m_buffer m) 0 = Some size ->
  0 <= m_offset m <= size ->
  match extract L use_tags e (m, dest) with
  | Returns _ (m', _) =>
      m_offset m <= m_offset m' <= size /\ base m' = base m
  | Throws _ (m', _) => m_offset m <= m_offset m' /\ m_ok m' = false
  | Undefined => True
  end.
Proof.
  intros Hsize Hoff.
  destruct m as [[buf ok] off]. cbn [m_buffer m_offset base] in *.
  unfold in_delta, in_string_delta, in_blob_delta.
  destruct e, ok; run_op; try (cbn; lia); rewrite Hsize;
    cbv [in_string_delta in_blob_delta];
    split_op; try exact I; settle; cbn [m_ok]; try lia.
  all: split; [lia|reflexivity].
Qed.

(** Reads inside the buffer are defined. *)
Lemma slice_defined (buf : list byte) (off count : Z) :
  0 <= off -> 0 <= count -> off + count <= Z.of_nat (length buf) ->
  slice buf off count <> None.
Proof. intros H1 H2 H3. now rewrite slice_inside. Qed.

Lemma length_field_defined (buf : list byte) (off : Z) :
  0 <= off -> off + Z.of_nat L <= Z.of_nat (length buf) ->
  length_field L buf off <> None.
Proof.
  intros H1 H2. unfold length_field. rewrite slice_inside by lia.
  discriminate.
Qed.

Lemma byte_at_defined (buf : list byte) (off : Z) :
  0 <= off < Z.of_nat (length buf) -> byte_at buf off <> None.
Proof.
  intros H1. unfold byte_at. rewrite slice_inside by lia.
  change (Z.to_nat 1) with 1%nat.
  destruct (skipn (Z.to_nat off) buf) as [|b rest] eqn:E; [|discriminate].
  apply (f_equal (@length byte)) in E. rewrite length_skipn in E.
  simpl in E. lia.
Qed.

Lemma memchr_defined (p : list byte) (c : byte) (n : nat) :
  (n <= length p)%nat -> memchr p c n <> None.
Proof.
  revert p. induction n as [|n IH]; intros p Hn; [discriminate|].
  destruct p as [|b p]; [simpl in Hn; lia|].
  cbn [memchr]. destruct (Byte.eqb b c); [discriminate|].
  specialize (IH p ltac:(simpl in Hn; lia)).
  destruct (memchr p c n) as [[k|]|]; congruence.
Qed.

(** A read the path found undefined was inside the buffer after all. *)
Ltac refute_undefined :=
  exfalso;
  match goal with
  | H : length_field L _ _ = None |- _ =>
      revert H; apply length_field_defined; lia
  | H : byte_at _ _ = None |- _ =>
      revert H; apply byte_at_defined; lia
  | H : slice _ _ _ = None |- _ =>
      revert H; apply slice_defined; lia
  | H : memchr _ _ _ = None |- _ =>
      revert H; apply memchr_defined; rewrite length_skipn; lia
  | _ => lia
  end.

(** An extraction from a buffer that holds the declared length reads
    inside it. *)
Lemma extract_defined
      (e : element) (m : in_message) (dest : list byte) (size : Z) :
  length_field L (m_buffer m) 0 = Some size ->
  0 <= m_offset m <= size ->
  size <= Z.of_nat (length (m_buffer m)) ->
  extract L use_tags e (m, dest) <> Undefined.
Proof.
  intros Hsize Hoff Hbuf.
  destruct m as [[buf ok] off]. cbn [m_buffer m_offset base] in *.
  destruct e, ok; run_op; try discriminate; rewrite Hsize;
    cbv [in_string_delta in_blob_delta];
    split_op; try discriminate; settle; refute_undefined.
Qed.

(** An extraction that finds fewer than [delta] bytes left throws
    message-too-short before it moves the offset. *)
Lemma extract_too_short
      (e : element) (m : in_message) (dest : list byte) (size : Z) :
  m_ok m = true ->
  length_field L (m_buffer m) 0 = Some size ->
  0 <= m_offset m <= size ->
  size < m_offset m + in_delta L use_tags e ->
  extract L use_tags e (m, dest)
  = Throws message_too_short_exception
      (mk_in_message (mk_message (m_buffer m) false) (m_offset m),
       match e with a_string => [] | a_blob => dest end).
Proof.
  intros Hok Hsize Hoff Hshort.
  destruct m as [[buf ok] off]. cbn [m_buffer m_offset m_ok base] in *.
  subst ok. unfold in_delta in Hshort.
  destruct e; run_op; rewrite Hsize; run_op;
    match goal with
    | |- context [?a <? ?b] => replace (a <? b) with true; [reflexivity|]
    end;
    symmetry; apply Z.ltb_lt; settle;
    rewrite wrap_size_t_small;
    revert Hshort; unfold in_string_delta, in_blob_delta;
    destruct use_tags; lia.
Qed.

(** X6: extractions in a row never move the offset back, and leave it
    inside the declared length as long as they succeed; the first one that
    throws ends the chain with the fail flag set. *)
Lemma extract_all_offsets
      (es : list element) (m : in_message) (dest : list byte) (size : Z) :
  length_field L (m_buffer m) 0 = Some size ->
  0 <= m_offset m <= size ->
  match extract_all L use_tags es (m, dest) with
  | Returns _ (m', _) =>
      m_offset m <= m_offset m' <= size /\ base m' = base m
  | Throws _ (m', _) => m_offset m <= m_offset m' /\ m_ok m' = false
  | Undefined => True
  end.
Proof.
  revert m dest. induction es as [|e es IH]; intros m dest Hsize Hoff.
  - cbn. split; [lia|reflexivity].
  - cbn [extract_all]. unfold bind.
    pose proof (extract_offsets e m dest size Hsize Hoff) as Hstep.
    destruct (extract L use_tags e (m, dest))
      as [[] [m1 d1]|ex [m1 d1]|]; [|exact Hstep|exact I].
    destruct Hstep as [Hoff1 Hbase].
    assert (Hsize1 : length_field L (m_buffer m1) 0 = Some size)
      by (rewrite Hbase; exact Hsize).
    specialize (IH m1 d1 Hsize1 ltac:(lia)).
    destruct (extract_all L use_tags es (m1, d1))
      as [[] [m2 d2]|ex [m2 d2]|];
      [|destruct IH; split; [lia|assumption]|exact I].
    destruct IH as [Hoff2 Hbase2]. split; [lia|congruence].
Qed.

(** ** The fail flag *)

(** C5: on a cursor whose fail flag is set ([m_ok] is [false]), each of the
    four stream operators throws bad-message and leaves the cursor, and the
    destination of an extraction, as they were: the flag stays set.  Only
    [out_message::clear] brings the flag back. *)
Theorem fail_flag_is_latched
        (out : out_message) (inp : in_message) (bytes dest : list byte) :
  m_ok out = false ->
  m_ok inp = false ->
  out_string L max_size use_tags bytes out
  = Throws bad_message_exception out
  /\ out_blob L max_size use_tags bytes out
     = Throws bad_message_exception out
  /\ in_string L use_tags (inp, dest)
     = Throws bad_message_exception (inp, dest)
  /\ in_blob L use_tags (inp, dest)
     = Throws bad_message_exception (inp, dest)
  /\ exists out', clear L out = Returns tt out' /\ m_ok out' = true.
Proof.
  intros Hout Hinp.
  destruct out as [obuf ook], inp as [[ibuf iok] off].
  cbn [m_ok base] in *. subst ook iok.
  repeat split.
  eexists. split; reflexivity.
Qed.

(** Every exception of the four operators leaves the flag set. *)
Lemma out_string_throw_sets_flag
      (s : list byte) (m m' : out_message) (ex : exn) :
  out_string L max_size use_tags s m = Throws ex m' -> m_ok m' = false.
Proof.
  destruct m as [buf ok]. revert m'. split_op; intros m' [= <- <-];
    reflexivity.
Qed.

Lemma out_blob_throw_sets_flag
      (blob : list byte) (m m' : out_message) (ex : exn) :
  out_blob L max_size use_tags blob m = Throws ex m' -> m_ok m' = false.
Proof.
  destruct m as [buf ok]. revert m'. split_op; intros m' [= <- <-];
    reflexivity.
Qed.

Lemma extract_throw_sets_flag
      (e : element) (m m' : in_message) (dest dest' : list byte)
      (ex : exn) :
  extract L use_tags e (m, dest) = Throws ex (m', dest') ->
  m_ok m' = false.
Proof.
  destruct m as [[buf ok] off]. revert m'.
  destruct e; split_op; intros m' [= <- <-]; reflexivity.
Qed.

(** ** Type tags *)

(** C7, amended: in tagged mode, on a cursor whose flag is clear and that
    has at least [delta] bytes left (2 for a string, [1 + L] for a blob), an
    extraction that meets the tag of another type throws type-mismatch;
    the read offset is the one before the extraction, and the flag is
    set. *)
Theorem tag_mismatch_keeps_offset
        (e : element) (m : in_message) (dest : list byte) (size : Z)
        (tag : byte) :
  use_tags = true ->
  m_ok m = true ->
  length_field L (m_buffer m) 0 = Some size ->
  0 <= m_offset m ->
  m_offset m + in_delta L use_tags e <= size ->
  byte_at (m_buffer m) (m_offset m) = Some tag ->
  tag <> tag_code (requested_tag e) ->
  extract L use_tags e (m, dest)
  = Throws type_mismach_exception
      (mk_in_message (mk_message (m_buffer m) false) (m_offset m),
       match e with a_string => [] | a_blob => dest end).
Proof.
  intros Htags Hok Hsize Hoff Hfit Htag Hne.
  destruct m as [[buf ok] off]. cbn [m_buffer m_offset m_ok base] in *.
  subst ok. unfold in_delta, in_string_delta, in_blob_delta in Hfit.
  rewrite Htags in *.
  assert (Hneq : Byte.eqb tag (tag_code (requested_tag e)) = false).
  { destruct (Byte.eqb tag (tag_code (requested_tag e))) eqn:E;
      [apply Byte.byte_dec_bl in E; contradiction|reflexivity]. }
  destruct e; cbn [requested_tag] in Hneq; run_op; rewrite Hsize;
    cbv [in_string_delta in_blob_delta]; run_op;
    settle;
    match goal with
    | |- context [?a <? ?b] =>
        replace (a <? b) with false by (symmetry; apply Z.ltb_ge; lia)
    end;
    run_op; rewrite Htag; run_op; rewrite Hneq; reflexivity.
Qed.

(** ** Blobs *)

(** C10: on a cursor whose flag is clear and whose next element is a blob
    of declared length 0, the extraction returns, the offset has moved
    past the tag and the length field, and the destination vector holds
    what it held before.  A string extraction, whatever its destination
    held, behaves as from an empty destination: it clears it first. *)
Theorem in_blob_empty_keeps_destination
        (m : in_message) (dest : list byte) (size : Z) :
  m_ok m = true ->
  length_field L (m_buffer m) 0 = Some size ->
  0 <= m_offset m ->
  m_offset m + in_blob_delta L use_tags <= size ->
  (use_tags = true ->
   byte_at (m_buffer m) (m_offset m) = Some (tag_code type_tag.blob)) ->
  length_field L (m_buffer m) (m_offset m + tag_size use_tags) = Some 0 ->
  in_blob L use_tags (m, dest)
  = Returns tt
      (mk_in_message (base m) (m_offset m + in_blob_delta L use_tags), dest)
  /\ forall old,
      in_string L use_tags (m, old) = in_string L use_tags (m, []).
Proof.
  intros Hok Hsize Hoff Hfit Htag Hlen.
  destruct m as [[buf ok] off]. cbn [m_buffer m_offset m_ok base] in *.
  subst ok. split; [|intros old; reflexivity].
  unfold in_blob_delta, tag_size in *.
  run_op. rewrite Hsize. cbv [in_blob_delta]. run_op.
  destruct use_tags; settle.
  - specialize (Htag eq_refl).
    replace (size <? off + (1 + Z.of_nat L)) with false
      by (symmetry; apply Z.ltb_ge; lia).
    run_op. rewrite Htag. run_op.
    rewrite (Byte.byte_dec_lb (eq_refl (tag_code type_tag.blob))).
    run_op. settle. rewrite Hlen. run_op. settle.
    replace (off + 1 + Z.of_nat L + 0) with (off + 1 + Z.of_nat L) by lia.
    replace (size <? off + 1 + Z.of_nat L) with false
      by (symmetry; apply Z.ltb_ge; lia).
    change (0 =? 0) with true. cbv beta iota. do 3 f_equal. lia.
  - replace (off + 0) with off in Hlen by lia.
    replace (size <? off + Z.of_nat L) with false
      by (symmetry; apply Z.ltb_ge; lia).
    run_op. rewrite Hlen. run_op. settle.
    replace (off + Z.of_nat L + 0) with (off + Z.of_nat L) by lia.
    replace (size <? off + Z.of_nat L) with false
      by (symmetry; apply Z.ltb_ge; lia).
    reflexivity.
Qed.

(** Settle the next comparison of the operator from the context. *)
Ltac decide_test :=
  match goal with
  | |- context [?a <? ?b] =>
      first [ replace (a <? b) with true by (symmetry; apply Z.ltb_lt; lia)
            | replace (a <? b) with false
                by (symmetry; apply Z.ltb_ge; lia) ]
  end; run_op.

(** C2, amended: on a cursor whose flag is clear and whose next element is
    a blob, the extraction reads the length field of [L] bytes; when the
    declared length goes beyond the message length it throws
    message-too-short (not container-overflow) and sets the fail flag;
    otherwise it returns, has moved the offset past the tag, the length
    field and exactly that many bytes, and (for a length other than 0) the
    destination holds exactly these bytes. *)
Theorem in_blob_reads_declared_length
        (m : in_message) (dest : list byte) (size blob_len : Z) :
  m_ok m = true ->
  length_field L (m_buffer m) 0 = Some size ->
  0 <= m_offset m ->
  m_offset m + in_blob_delta L use_tags <= size ->
  (use_tags = true ->
   byte_at (m_buffer m) (m_offset m) = Some (tag_code type_tag.blob)) ->
  length_field L (m_buffer m) (m_offset m + tag_size use_tags)
  = Some blob_len ->
  (size < m_offset m + in_blob_delta L use_tags + blob_len ->
   in_blob L use_tags (m, dest)
   = Throws message_too_short_exception
       (mk_in_message (mk_message (m_buffer m) false)
                      (m_offset m + in_blob_delta L use_tags), dest))
  /\ (forall payload,
        m_offset m + in_blob_delta L use_tags + blob_len <= size ->
        slice (m_buffer m) (m_offset m + in_blob_delta L use_tags) blob_len
        = Some payload ->
        in_blob L use_tags (m, dest)
        = Returns tt
            (mk_in_message
               (base m)
               (m_offset m + in_blob_delta L use_tags + blob_len),
             if blob_len =? 0 then dest else payload)).
Proof.
  intros Hok Hsize Hoff Hfit Htag Hlen.
  destruct m as [[buf ok] off]. cbn [m_buffer m_offset m_ok base] in *.
  subst ok.
  unfold in_blob_delta, tag_size in *.
  split; [intros Hlong|intros payload Hshort Hpayload];
    run_op; rewrite Hsize; cbv [in_blob_delta]; run_op;
    destruct use_tags; settle.
  - specialize (Htag eq_refl). decide_test.
    rewrite Htag. run_op. rewrite byte_eqb_refl. run_op. settle.
    rewrite Hlen. run_op. settle. decide_test.
    do 3 f_equal. lia.
  - replace (off + 0) with off in Hlen by lia. decide_test.
    rewrite Hlen. run_op. settle. decide_test. reflexivity.
  - specialize (Htag eq_refl). decide_test.
    rewrite Htag. run_op. rewrite byte_eqb_refl. run_op. settle.
    rewrite Hlen. run_op. settle. decide_test.
    replace (off + (1 + Z.of_nat L)) with (off + 1 + Z.of_nat L)
      in * by lia.
    destruct (blob_len =? 0) eqn:E; run_op.
    + settle. do 3 f_equal. lia.
    + rewrite Hpayload. run_op. settle. reflexivity.
  - replace (off + 0) with off in Hlen by lia. decide_test.
    rewrite Hlen. run_op. settle. decide_test.
    destruct (blob_len =? 0) eqn:E; run_op.
    + settle. do 3 f_equal. lia.
    + rewrite Hpayload. run_op. settle. reflexivity.
Qed.

(** ** Strings *)

(** C6, amended: on a cursor whose flag is clear, whose next element is a
    string, that has at least [delta] bytes left (the tag and one byte in
    tagged mode, one byte otherwise) and no 0 byte from the read offset up
    to the declared length, the extraction throws container-overflow and
    sets the fail flag. *)
Theorem in_string_without_terminator
        (m : in_message) (dest region : list byte) (size : Z) :
  m_ok m = true ->
  length_field L (m_buffer m) 0 = Some size ->
  0 <= m_offset m ->
  m_offset m + in_string_delta use_tags <= size ->
  (use_tags = true ->
   byte_at (m_buffer m) (m_offset m) = Some (tag_code type_tag.str)) ->
  slice (m_buffer m) (m_offset m) (size - m_offset m) = Some region ->
  Forall (fun b => b <> x00) region ->
  in_string L use_tags (m, dest)
  = Throws container_overflow_exception
      (mk_in_message (mk_message (m_buffer m) false)
                     (m_offset m + tag_size use_tags), []).
Proof.
  intros Hok Hsize Hoff Hfit Htag Hregion Hnul.
  destruct m as [[buf ok] off]. cbn [m_buffer m_offset m_ok base] in *.
  subst ok. unfold in_string_delta, tag_size in *.
  pose proof (slice_in_bounds _ _ _ _ Hregion) as (_ & _ & Hbuf).
  run_op. rewrite Hsize. cbv [in_string_delta]. run_op.
  destruct use_tags; settle.
  - specialize (Htag eq_refl). decide_test.
    rewrite Htag. run_op. rewrite byte_eqb_refl. run_op. settle.
    replace ((0 <=? off + 1) && (off + 1 <? Z.of_nat (length buf)))
      with true
      by (symmetry; apply andb_true_intro; split;
          [apply Z.leb_le|apply Z.ltb_lt]; lia).
    destruct region as [|t region]; [cbn in *; lia|].
    apply slice_tail in Hregion. inversion Hnul as [|? ? _ Hnul']; subst.
    replace (size - (off + 1)) with (size - off - 1) by lia.
    rewrite (memchr_absent_slice _ _ _ _ _ Hregion Hnul').
    reflexivity.
  - decide_test. settle.
    replace ((0 <=? off) && (off <? Z.of_nat (length buf)))
      with true
      by (symmetry; apply andb_true_intro; split;
          [apply Z.leb_le|apply Z.ltb_lt]; lia).
    rewrite (memchr_absent_slice _ _ _ _ _ Hregion Hnul).
    run_op. do 3 f_equal. lia.
Qed.

(** ** The read offset *)

(** C8, amended: the read offset never moves back, whatever the outcome of
    an extraction, and after an extraction that returns it is at most the
    declared message length.  An extraction that finds fewer than [delta]
    bytes left throws message-too-short with the offset unchanged.  (A blob
    whose declared length goes beyond the message also throws
    message-too-short, but with the offset already past the tag and the
    length field.)  On a buffer that holds the declared length the
    extraction reads inside the buffer. *)
Theorem read_offset_advances
        (e : element) (m : in_message) (dest : list byte) (size : Z) :
  length_field L (m_buffer m) 0 = Some size ->
  0 <= m_offset m <= size ->
  match extract L use_tags e (m, dest) with
  | Returns _ (m', _) =>
      m_offset m <= m_offset m' <= size /\ base m' = base m
  | Throws _ (m', _) => m_offset m <= m_offset m' /\ m_ok m' = false
  | Undefined => True
  end
  /\ (m_ok m = true ->
      size < m_offset m + in_delta L use_tags e ->
      extract L use_tags e (m, dest)
      = Throws message_too_short_exception
          (mk_in_message (mk_message (m_buffer m) false) (m_offset m),
           match e with a_string => [] | a_blob => dest end))
  /\ (size <= Z.of_nat (length (m_buffer m)) ->
      extract L use_tags e (m, dest) <> Undefined).
Proof.
  intros Hsize Hoff. split; [|split].
  - now apply extract_offsets.
  - intros Hok Hshort. now apply extract_too_short with (size := size).
  - intros Hbuf. now apply extract_defined with (size := size).
Qed.

(** ** Round trip of a string *)

Lemma skipn_length_field (v : Z) (rest : list byte) :
  skipn L (le_encode L v ++ rest) = rest.
Proof.
  rewrite skipn_app, length_le_encode, Nat.sub_diag.
  rewrite skipn_all2 by (rewrite length_le_encode; lia).
  reflexivity.
Qed.

(** C3, amended: for every string [s] without a 0 byte that fits a new
    message, [operator<<] emits the length prefix, the tag (in tagged
    mode), the bytes of [s] and a 0 byte of its own, and [operator>>] on an
    [in_message] attached to that buffer returns exactly [s], whatever the
    destination held, with the offset at the end of the buffer.  (A string
    with a 0 byte inside comes back cut at that byte.) *)
Theorem string_round_trip (s dest : list byte) :
  (1 <= L)%nat ->
  Z.of_nat L + max_size < 2 ^ (8 * Z.of_nat L) ->
  Forall (fun b => b <> x00) s ->
  Z.of_nat L + Z.of_nat (length s) + out_string_delta use_tags
  <= max_size ->
  exists m' prefix,
    out_string L max_size use_tags s (fresh_out_message L) = Returns tt m'
    /\ length prefix = L
    /\ m_buffer m' = prefix ++ tag_bytes use_tags type_tag.str ++ s ++ [x00]
    /\ in_string L use_tags (attach L (m_buffer m'), dest)
       = Returns tt
           (mk_in_message (mk_message (m_buffer m') true)
                          (Z.of_nat (length (m_buffer m'))), s).
Proof.
  intros HL Hcfg Hs Hfit.
  pose proof (length_tag_bytes use_tags type_tag.str) as Htag.
  pose proof (out_string_delta_eq use_tags) as Hd.
  assert (Hpow : 2 ^ (8 * Z.of_nat L) <= 2 ^ 56)
    by (apply Z.pow_le_mono_r; lia).
  change (2 ^ 56) with 72057594037927936 in Hpow.
  assert (Hwrap : forall v, 0 <= v <= Z.of_nat L + max_size -> wrap L v = v).
  { intros v Hv. apply wrap_small.
    remember (2 ^ (8 * Z.of_nat L)) as bound. lia. }
  remember (2 ^ (8 * Z.of_nat L)) as bound eqn:Hbound. clear Hbound.
  set (len := Z.of_nat (length s)) in *.
  set (delta := out_string_delta use_tags) in *.
  set (T := tag_bytes use_tags type_tag.str) in *.
  set (X := Z.of_nat L + (Z.of_nat L + len + delta)).
  exists (mk_message (le_encode L X ++ T ++ s ++ [x00]) true),
         (le_encode L X).
  cbn [m_buffer].
  split; [|split; [apply length_le_encode|split; [reflexivity|]]].
  - rewrite (out_string_returns L max_size use_tags s
               (fresh_out_message L) (Z.of_nat L));
      [|reflexivity|now apply fresh_length_field|fold len delta; lia
       |fold len delta; lia].
    fold len delta T. cbn [fresh_out_message m_buffer].
    rewrite skipn_length_field.
    rewrite (Hwrap (Z.of_nat L + len + delta)) by lia.
    rewrite Hwrap by lia. reflexivity.
  - assert (Hsize : length_field L (le_encode L X ++ T ++ s ++ [x00]) 0
                    = Some X)
      by (rewrite length_field_encode, Hwrap by (subst X; lia);
          reflexivity).
    assert (Hbuf : Z.of_nat (length (le_encode L X ++ T ++ s ++ [x00]))
                   = Z.of_nat L + (len + delta)).
    { rewrite !length_app, length_le_encode. cbn [length]. lia. }
    rewrite Hbuf. unfold attach.
    run_op. rewrite Hsize. cbv [in_string_delta]. run_op.
    assert (Hskip : skipn (Z.to_nat (Z.of_nat L + delta - 1))
                          (le_encode L X ++ T ++ s ++ [x00])
                    = s ++ [x00]).
    { rewrite (app_assoc (le_encode L X) T).
      replace (Z.to_nat (Z.of_nat L + delta - 1))
        with (length (le_encode L X ++ T))
        by (rewrite length_app, length_le_encode; lia).
      rewrite skipn_app, Nat.sub_diag, skipn_all. reflexivity. }
    assert (Hload : slice (le_encode L X ++ T ++ s ++ [x00])
                          (Z.of_nat L + delta - 1) len
                    = Some s).
    { rewrite (app_assoc (le_encode L X) T).
      replace (Z.of_nat L + delta - 1)
        with (Z.of_nat (length (le_encode L X ++ T)))
        by (rewrite length_app, length_le_encode; lia).
      apply slice_app_middle. }
    assert (Hfind : memchr (s ++ [x00]) x00
                      (Z.to_nat (X - (Z.of_nat L + delta - 1)))
                    = Some (Some len)).
    { apply memchr_found; [exact Hs|]. subst X. lia. }
    subst T delta. unfold tag_bytes, out_string_delta in *.
    destruct use_tags; settle.
    + decide_test.
      replace (byte_at _ _) with (Some (tag_code type_tag.str)).
      2:{ symmetry. unfold byte_at.
          rewrite <- (length_le_encode L X) at 2.
          change 1 with (Z.of_nat (length [tag_code type_tag.str])).
          now rewrite slice_app_middle. }
      run_op. rewrite byte_eqb_refl. run_op. settle.
      replace ((0 <=? Z.of_nat L + 1) && _) with true
        by (symmetry; apply andb_true_intro; split;
            [apply Z.leb_le|apply Z.ltb_lt]; lia).
      replace (Z.of_nat L + 2 - 1) with (Z.of_nat L + 1)
        in Hskip, Hload, Hfind by lia.
      rewrite Hskip, Hfind. run_op. rewrite Hload. run_op.
      settle. do 3 f_equal; lia.
    + decide_test. settle.
      replace ((0 <=? Z.of_nat L) && _) with true
        by (symmetry; apply andb_true_intro; split;
            [apply Z.leb_le|apply Z.ltb_lt]; lia).
      replace (Z.of_nat L + 1 - 1) with (Z.of_nat L)
        in Hskip, Hload, Hfind by lia.
      rewrite Hskip, Hfind. run_op. rewrite Hload. run_op.
      settle. do 3 f_equal; lia.
Qed.

(** ** More on the four operators *)

(** A string extraction whose terminator lies inside the declared
    length. *)
Lemma in_string_finds_terminator
      (m : in_message) (dest s rest : list byte) (size : Z) :
  m_ok m = true ->
  length_field L (m_buffer m) 0 = Some size ->
  0 <= m_offset m ->
  (use_tags = true ->
   byte_at (m_buffer m) (m_offset m) = Some (tag_code type_tag.str)) ->
  skipn (Z.to_nat (m_offset m + tag_size use_tags)) (m_buffer m)
  = s ++ x00 :: rest ->
  Forall (fun b => b <> x00) s ->
  m_offset m + in_string_delta use_tags + Z.of_nat (length s) <= size ->
  in_string L use_tags (m, dest)
  = Returns tt
      (mk_in_message
         (base m)
         (m_offset m + in_string_delta use_tags + Z.of_nat (length s)),
       s).
Proof.
  intros Hok Hsize Hoff Htag Hskip Hs Hfit.
  destruct m as [[buf ok] off]. cbn [m_buffer m_offset m_ok base] in *.
  subst ok. unfold in_string_delta, tag_size in *.
  pose proof (f_equal (@length byte) Hskip) as Hlen.
  rewrite length_skipn, length_app in Hlen. cbn [length] in Hlen.
  assert (Hload : slice buf (off + (if use_tags then 1 else 0))
                        (Z.of_nat (length s)) = Some s).
  { rewrite slice_inside by (destruct use_tags; lia).
    rewrite Hskip, Nat2Z.id, firstn_app, Nat.sub_diag, firstn_all.
    cbn. now rewrite app_nil_r. }
  run_op. rewrite Hsize. cbv [in_string_delta]. run_op.
  destruct use_tags; settle.
  - specialize (Htag eq_refl). decide_test.
    rewrite Htag. run_op. rewrite byte_eqb_refl. run_op. settle.
    replace ((0 <=? off + 1) && (off + 1 <? Z.of_nat (length buf)))
      with true
      by (symmetry; apply andb_true_intro; split;
          [apply Z.leb_le|apply Z.ltb_lt]; lia).
    rewrite Hskip, memchr_found by (try assumption; lia).
    run_op. rewrite Hload. run_op. settle. do 3 f_equal; lia.
  - replace (off + 0) with off in * by lia. decide_test. settle.
    replace ((0 <=? off) && (off <? Z.of_nat (length buf)))
      with true
      by (symmetry; apply andb_true_intro; split;
          [apply Z.leb_le|apply Z.ltb_lt]; lia).
    rewrite Hskip, memchr_found by (try assumption; lia).
    run_op. rewrite Hload. run_op. settle. do 3 f_equal; lia.
Qed.

(** X1: a string extraction that finds its terminator inside the declared
    length returns the bytes before the first 0 byte, leaves buffer and flag
    as they were, and stops behind the terminator. *)
Theorem in_string_returns
        (m : in_message) (dest s rest : list byte) (size : Z) :
  m_ok m = true ->
  length_field L (m_buffer m) 0 = Some size ->
  0 <= m_offset m ->
  (use_tags = true ->
   byte_at (m_buffer m) (m_offset m) = Some (tag_code type_tag.str)) ->
  skipn (Z.to_nat (m_offset m + tag_size use_tags)) (m_buffer m)
  = s ++ x00 :: rest ->
  Forall (fun b => b <> x00) s ->
  m_offset m + in_string_delta use_tags + Z.of_nat (length s) <= size ->
  in_string L use_tags (m, dest)
  = Returns tt
      (mk_in_message
         (base m)
         (m_offset m + in_string_delta use_tags + Z.of_nat (length s)),
       s).
Proof. apply in_string_finds_terminator. Qed.

(** A blob extraction whose declared length fits: the counterpart of
    [in_string_finds_terminator]. *)
Lemma in_blob_returns
      (m : in_message) (dest payload : list byte) (size blob_len : Z) :
  m_ok m = true ->
  length_field L (m_buffer m) 0 = Some size ->
  0 <= m_offset m ->
  (use_tags = true ->
   byte_at (m_buffer m) (m_offset m) = Some (tag_code type_tag.blob)) ->
  length_field L (m_buffer m) (m_offset m + tag_size use_tags)
  = Some blob_len ->
  m_offset m + in_blob_delta L use_tags + blob_len <= size ->
  slice (m_buffer m) (m_offset m + in_blob_delta L use_tags) blob_len
  = Some payload ->
  in_blob L use_tags (m, dest)
  = Returns tt
      (mk_in_message (base m)
                     (m_offset m + in_blob_delta L use_tags + blob_len),
       if blob_len =? 0 then dest else payload).
Proof.
  intros Hok Hsize Hoff Htag Hlen Hfit Hpayload.
  destruct m as [[buf ok] off]. cbn [m_buffer m_offset m_ok base] in *.
  subst ok. unfold in_blob_delta, tag_size in *.
  run_op. rewrite Hsize. cbv [in_blob_delta]. run_op.
  destruct use_tags; settle.
  - specialize (Htag eq_refl). decide_test.
    rewrite Htag. run_op. rewrite byte_eqb_refl. run_op. settle.
    rewrite Hlen. run_op. settle. decide_test.
    replace (off + (1 + Z.of_nat L)) with (off + 1 + Z.of_nat L)
      in * by lia.
    destruct (blob_len =? 0) eqn:E; run_op.
    + settle. do 3 f_equal. lia.
    + rewrite Hpayload. run_op. settle. reflexivity.
  - replace (off + 0) with off in Hlen by lia. decide_test.
    rewrite Hlen. run_op. settle. decide_test.
    destruct (blob_len =? 0) eqn:E; run_op.
    + settle. do 3 f_equal. lia.
    + rewrite Hpayload. run_op. settle. reflexivity.
Qed.

(** What a successful append leaves in the buffer: a length prefix of [L]
    bytes, then everything that was behind the old prefix, then the new
    element. *)
Lemma out_string_buffer (s : list byte) (m m' : out_message) :
  out_string L max_size use_tags s m = Returns tt m' ->
  m_ok m = true /\ m_ok m' = true
  /\ (L <= length (m_buffer m))%nat
  /\ exists prefix,
       length prefix = L
       /\ m_buffer m'
          = prefix ++ skipn L (m_buffer m)
              ++ tag_bytes use_tags type_tag.str ++ s ++ [x00].
Proof.
  clear L_narrow.
  destruct m as [buf ok]. revert m'. unfold tag_bytes.
  split_op; intros m' [= <-]; cbn [m_buffer m_ok];
    match goal with
    | H : length_field L buf 0 = Some _ |- _ =>
        pose proof (length_field_in_bounds _ _ _ _ H) as [_ Hin]
    end;
    (split; [reflexivity|]); (split; [reflexivity|]); (split; [lia|]);
    eexists; (split; [apply length_le_encode|]); f_equal;
    rewrite <- !app_assoc, skipn_app;
    replace (L - length buf)%nat with 0%nat by lia; reflexivity.
Qed.

Lemma out_blob_buffer (blob : list byte) (m m' : out_message) :
  out_blob L max_size use_tags blob m = Returns tt m' ->
  m_ok m = true /\ m_ok m' = true
  /\ (L <= length (m_buffer m))%nat
  /\ exists prefix,
       length prefix = L
       /\ m_buffer m'
          = prefix ++ skipn L (m_buffer m)
              ++ tag_bytes use_tags type_tag.blob
              ++ le_encode L (wrap L (Z.of_nat (length blob))) ++ blob.
Proof.
  clear L_narrow.
  destruct m as [buf ok]. revert m'. unfold tag_bytes.
  split_op; intros m' [= <-]; cbn [m_buffer m_ok];
    match goal with
    | H : length_field L buf 0 = Some _ |- _ =>
        pose proof (length_field_in_bounds _ _ _ _ H) as [_ Hin]
    end;
    (split; [reflexivity|]); (split; [reflexivity|]); (split; [lia|]);
    eexists; (split; [apply length_le_encode|]); f_equal;
    rewrite <- !app_assoc, skipn_app;
    replace (L - length buf)%nat with 0%nat by lia; reflexivity.
Qed.

(** X3: a successful append keeps every byte behind the old length prefix
    and puts the new element behind them; it writes the prefix only. *)
Theorem append_keeps_earlier_elements
        (e : element) (bytes : list byte) (m m' : out_message) :
  append L max_size use_tags e bytes m = Returns tt m' ->
  m_ok m' = true
  /\ exists prefix,
       length prefix = L
       /\ m_buffer m'
          = prefix ++ skipn L (m_buffer m)
              ++ element_bytes L use_tags e bytes.
Proof.
  intros Hrun. destruct e; cbn [append element_bytes] in *.
  - destruct (out_string_buffer _ _ _ Hrun) as (_ & Hok & _ & Hbuf).
    split; assumption.
  - destruct (out_blob_buffer _ _ _ Hrun) as (_ & Hok & _ & Hbuf).
    split; assumption.
Qed.

(** X4: an append that throws has written nothing: the buffer is the one
    before the call and the fail flag is set.  It throws bad-message on a
    message whose flag was set, and message-overflow otherwise. *)
Theorem failed_append_keeps_buffer
        (e : element) (bytes : list byte) (m m' : out_message) (ex : exn) :
  append L max_size use_tags e bytes m = Throws ex m' ->
  m_buffer m' = m_buffer m
  /\ m_ok m' = false
  /\ (ex = bad_message_exception /\ m_ok m = false
      \/ ex = message_overflow_exception /\ m_ok m = true).
Proof.
  destruct m as [buf ok]. revert m'.
  destruct e; cbn [append]; split_op; intros m' [= <- <-];
    cbn [m_buffer m_ok]; repeat split; auto.
Qed.

(** X5: an extraction never writes to the buffer.  When it returns, buffer
    and flag are as before; when it throws, the buffer is as before and
    the flag is set, and a blob extraction has left its destination as it
    was. *)
Theorem extract_leaves_buffer
        (e : element) (m : in_message) (dest : list byte) :
  match extract L use_tags e (m, dest) with
  | Returns _ (m', _) => base m' = base m
  | Throws _ (m', dest') =>
      m_buffer m' = m_buffer m /\ m_ok m' = false
      /\ (e = a_blob -> dest' = dest)
  | Undefined => True
  end.
Proof.
  destruct m as [[buf ok] off].
  destruct e; split_op; cbn [m_buffer m_ok base];
    try exact I; try reflexivity;
    repeat split; try reflexivity; try discriminate; congruence.
Qed.

Lemma length_field_app_middle (pre rest : list byte) (v : Z) :
  length_field L (pre ++ le_encode L v ++ rest) (Z.of_nat (length pre))
  = Some (wrap L v).
Proof.
  unfold length_field.
  rewrite <- (length_le_encode L v) at 2.
  rewrite slice_app_middle. cbn [option_map].
  now rewrite le_decode_encode.
Qed.

Lemma byte_at_app_middle (pre rest : list byte) (b : byte) :
  byte_at (pre ++ b :: rest) (Z.of_nat (length pre)) = Some b.
Proof.
  unfold byte_at.
  change 1 with (Z.of_nat (length [b])).
  change (b :: rest) with ([b] ++ rest).
  now rewrite slice_app_middle.
Qed.

(** X2: an element appended to a message can be extracted again from the
    place it was put: on a message whose flag is clear and whose length
    prefix [used] is at least the buffer size, an append that fits succeeds,
    and an extraction of the same kind from the new buffer, at the old end
    of the buffer, returns exactly the bytes appended (for a string without
    0 byte; an empty blob leaves the destination as it was) and stops at the
    new end of the buffer. *)
Theorem append_then_extract
        (e : element) (bytes dest : list byte) (m : out_message)
        (used : Z) :
  m_ok m = true ->
  length_field L (m_buffer m) 0 = Some used ->
  Z.of_nat (length (m_buffer m)) <= used ->
  used + Z.of_nat (length bytes) + out_delta use_tags e <= max_size ->
  used + (used + Z.of_nat (length bytes) + out_delta use_tags e)
  < 2 ^ (8 * Z.of_nat L) ->
  (e = a_string -> Forall (fun b => b <> x00) bytes) ->
  exists m',
    append L max_size use_tags e bytes m = Returns tt m'
    /\ extract L use_tags e
         (mk_in_message m' (Z.of_nat (length (m_buffer m))), dest)
       = Returns tt
           (mk_in_message m' (Z.of_nat (length (m_buffer m'))),
            match e with
            | a_string => bytes
            | a_blob => if length bytes =? 0 then dest else bytes
            end%nat).
Proof.
  intros Hok Hused Hn Hmax Hrep Hnul.
  pose proof (length_field_in_bounds _ _ _ _ Hused) as [_ HL].
  pose proof (length_field_range _ _ _ _ Hused) as Hur.
  pose proof (length_tag_bytes use_tags type_tag.str) as Htag_s.
  pose proof (length_tag_bytes use_tags type_tag.blob) as Htag_b.
  pose proof (out_string_delta_eq use_tags) as Hd.
  assert (Hpow : 2 ^ (8 * Z.of_nat L) <= 2 ^ 56)
    by (apply Z.pow_le_mono_r; lia).
  change (2 ^ 56) with 72057594037927936 in Hpow.
  set (len := Z.of_nat (length bytes)) in *.
  set (n := Z.of_nat (length (m_buffer m))) in *.
  set (X := used + (used + len + out_delta use_tags e)) in *.
  assert (Hwrap : forall v, 0 <= v <= X -> wrap L v = v).
  { intros v Hv. apply wrap_small.
    remember (2 ^ (8 * Z.of_nat L)) as bound. lia. }
  remember (2 ^ (8 * Z.of_nat L)) as bound eqn:Hbound. clear Hbound.
  set (A := le_encode L X ++ skipn L (m_buffer m)).
  assert (HA : Z.of_nat (length A) = n).
  { unfold A. rewrite length_app, length_le_encode, length_skipn.
    subst n. lia. }
  assert (Hskip : forall more,
             skipn L (m_buffer m ++ more) = skipn L (m_buffer m) ++ more).
  { intros more. rewrite skipn_app.
    replace (L - length (m_buffer m))%nat with 0%nat by lia.
    reflexivity. }
  destruct e; cbn [append out_delta] in *.
  - specialize (Hnul eq_refl).
    set (T := tag_bytes use_tags type_tag.str) in *.
    exists (mk_message (A ++ T ++ bytes ++ [x00]) true).
    split.
    + rewrite (out_string_returns L max_size use_tags bytes m used)
        by (try assumption; fold len; lia).
      fold len T. rewrite Hskip.
      rewrite (Hwrap (used + len + _)) by (subst X; lia).
      fold X. rewrite Hwrap by lia.
      unfold A. now rewrite <- app_assoc.
    + cbn [extract m_buffer].
      assert (Hbuf : Z.of_nat (length (A ++ T ++ bytes ++ [x00]))
                     = n + in_string_delta use_tags + len).
      { rewrite !length_app. cbn [length]. unfold in_string_delta.
        unfold out_string_delta in Hd. subst len. lia. }
      rewrite Hbuf.
      apply (in_string_finds_terminator
               (mk_in_message (mk_message (A ++ T ++ bytes ++ [x00]) true) n)
               dest bytes [] X); cbn [m_buffer m_offset m_ok base].
      * reflexivity.
      * unfold A. rewrite <- app_assoc, length_field_encode, Hwrap by lia.
        reflexivity.
      * subst n. lia.
      * intros Ht. subst T. unfold tag_bytes. rewrite Ht, <- HA.
        cbn [app]. apply byte_at_app_middle.
      * rewrite (app_assoc A T).
        replace (Z.to_nat (n + tag_size use_tags))
          with (length (A ++ T))
          by (rewrite length_app; unfold tag_size, out_blob_delta in *;
              subst n; destruct use_tags; lia).
        rewrite skipn_app, Nat.sub_diag, skipn_all. reflexivity.
      * exact Hnul.
      * unfold in_string_delta. unfold out_string_delta in *.
        subst X len n. destruct use_tags; lia.
  - clear Hnul.
    set (T := tag_bytes use_tags type_tag.blob) in *.
    assert (Hlen : wrap L len = len) by (apply Hwrap; subst X len; lia).
    exists (mk_message (A ++ T ++ le_encode L len ++ bytes) true).
    split.
    + rewrite (out_blob_returns L max_size use_tags bytes m used)
        by (try assumption; fold len; lia).
      fold len T. rewrite Hskip, Hlen.
      rewrite (Hwrap (used + len + _)) by (subst X; lia).
      fold X. rewrite Hwrap by lia.
      unfold A. now rewrite <- app_assoc.
    + cbn [extract m_buffer].
      assert (Hbuf : Z.of_nat (length (A ++ T ++ le_encode L len ++ bytes))
                     = n + in_blob_delta L use_tags + len).
      { rewrite !length_app, length_le_encode. unfold in_blob_delta.
        unfold out_blob_delta in *. subst len.
        destruct use_tags; lia. }
      rewrite Hbuf.
      replace (length bytes =? 0)%nat with (len =? 0)
        by (subst len; destruct bytes; reflexivity).
      apply (in_blob_returns
               (mk_in_message
                  (mk_message (A ++ T ++ le_encode L len ++ bytes) true) n)
               dest bytes X len); cbn [m_buffer m_offset m_ok base].
      * reflexivity.
      * unfold A. rewrite <- app_assoc, length_field_encode, Hwrap by lia.
        reflexivity.
      * subst n. lia.
      * intros Ht. subst T. unfold tag_bytes. rewrite Ht, <- HA.
        cbn [app]. apply byte_at_app_middle.
      * rewrite (app_assoc A T).
        replace (n + tag_size use_tags)
          with (Z.of_nat (length (A ++ T)))
          by (rewrite length_app; unfold tag_size, out_blob_delta in *;
              subst n; destruct use_tags; lia).
        rewrite length_field_app_middle, Hlen. reflexivity.
      * unfold in_blob_delta. unfold out_blob_delta in *.
        subst X len n. destruct use_tags; lia.
      * rewrite (app_assoc A T), (app_assoc (A ++ T)).
        replace (n + in_blob_delta L use_tags)
          with (Z.of_nat (length ((A ++ T) ++ le_encode L len)))
          by (rewrite !length_app, length_le_encode;
              unfold in_blob_delta, out_blob_delta in *;
              subst n; destruct use_tags; lia).
        rewrite <- (app_nil_r bytes) at 1.
        subst len. apply slice_app_middle.
Qed.

End InFacts.

(** ** Connecting with retries *)

Section ConnectFacts.

Variables EAGAIN ECONNREFUSED EINPROGRESS INVALID_SOCKET : Z.
Variable connect_outcome : nat -> option Z.
Variable non_blocking_ok : bool.

Lemma is_retry_error_true (err : Z) :
  err = EAGAIN \/ err = ECONNREFUSED \/ err = EINPROGRESS ->
  Socket.is_retry_error EAGAIN ECONNREFUSED EINPROGRESS err = true.
Proof.
  unfold Socket.is_retry_error.
  intros [-> | [-> | ->]]; rewrite Z.eqb_refl, ?orb_true_r; reflexivity.
Qed.

Lemma is_retry_error_false (err : Z) :
  err <> EAGAIN -> err <> ECONNREFUSED -> err <> EINPROGRESS ->
  Socket.is_retry_error EAGAIN ECONNREFUSED EINPROGRESS err = false.
Proof.
  intros H1 H2 H3. unfold Socket.is_retry_error.
  apply Z.eqb_neq in H1, H2, H3. now rewrite H1, H2, H3.
Qed.

(** [k] failed attempts with an error of the retry list: the loop goes
    through [k] rounds of [connect] and a pause of one second, and is then
    where it would be with the counter [k] higher. *)
Lemma connect_loop_rounds
      (k remaining : nat) (attempt : Z) (w : Socket.world) :
  (k <= remaining)%nat ->
  (forall j, (j < k)%nat ->
     exists err,
       connect_outcome (Socket.connects w + j) = Some err
       /\ (err = EAGAIN \/ err = ECONNREFUSED \/ err = EINPROGRESS)) ->
  exists w',
    Socket.connect_loop EAGAIN ECONNREFUSED EINPROGRESS connect_outcome
      remaining attempt w
    = Socket.connect_loop EAGAIN ECONNREFUSED EINPROGRESS connect_outcome
        (remaining - k) (attempt + Z.of_nat k) w'
    /\ Socket.m_socket w' = Socket.m_socket w
    /\ Socket.m_ok w' = Socket.m_ok w
    /\ Socket.connects w' = (Socket.connects w + k)%nat
    /\ Socket.events w' = Socket.events w ++ Socket.retry_rounds k.
Proof.
  revert remaining attempt w.
  induction k as [|k IH]; intros remaining attempt w Hk Hfail.
  - exists w. rewrite Nat.sub_0_r, Z.add_0_r, Nat.add_0_r, app_nil_r.
    repeat split.
  - destruct remaining as [|remaining]; [lia|].
    destruct (Hfail 0%nat ltac:(lia)) as (err & Hout & Herr).
    rewrite Nat.add_0_r in Hout. apply is_retry_error_true in Herr.
    set (w1 := Socket.record (Socket.sleep_for_seconds 1)
                 (Socket.mk_world (Socket.m_socket w) (Socket.m_ok w)
                    (S (Socket.connects w)) err
                    (Socket.events w ++ [Socket.connect_call]))).
    destruct (IH remaining (attempt + 1) w1 ltac:(lia))
      as (w' & Hrun & H1 & H2 & H3 & H4).
    { intros j Hj. destruct (Hfail (S j) ltac:(lia)) as (e & He & Hr).
      exists e. split; [|exact Hr].
      cbn [w1 Socket.record Socket.connects].
      rewrite <- He. f_equal. lia. }
    exists w'. split; [|repeat split].
    + cbn [Socket.connect_loop]. unfold bind at 1. unfold Socket.connect.
      rewrite Hout. cbn [Socket.record Socket.m_socket Socket.m_ok
                           Socket.connects Socket.socket_error Socket.events].
      change (-1 <? 0) with true. cbv iota.
      unfold bind at 1. unfold Socket.get_socket_error, gets.
      cbn [Socket.socket_error]. unfold bind at 1. rewrite Herr.
      unfold Socket.sleep_for, modify. fold w1.
      rewrite Hrun. cbn [Nat.sub]. f_equal. lia.
    + rewrite H1. reflexivity.
    + rewrite H2. reflexivity.
    + rewrite H3. cbn. lia.
    + rewrite H4. cbn. rewrite <- !app_assoc. reflexivity.
Qed.

(** C9: from a valid socket, [connect_proc] calls [connect] again only
    after a failure with connection-refused, EAGAIN or in-progress, pauses
    one second after each such failure, and makes at most 10 calls.  With
    [k] such failures in a row: after 10 of them it raises
    active-socket-prepare; on another error at the next call it raises
    active-socket-prepare at once, without a further call; on success at
    the next call it goes on to the non-blocking mode. *)
Theorem connect_proc_retries (w : Socket.world) (k : nat) :
  Socket.m_socket w <> INVALID_SOCKET ->
  (k <= 10)%nat ->
  (forall j, (j < k)%nat ->
     exists err,
       connect_outcome (Socket.connects w + j) = Some err
       /\ (err = EAGAIN \/ err = ECONNREFUSED \/ err = EINPROGRESS)) ->
  (k = 10%nat ->
   exists w',
     Socket.connect_proc EAGAIN ECONNREFUSED EINPROGRESS INVALID_SOCKET
       connect_outcome non_blocking_ok w
     = Throws active_socket_prepare_exception w'
     /\ Socket.connects w' = (Socket.connects w + 10)%nat
     /\ Socket.events w' = Socket.events w ++ Socket.retry_rounds 10
     /\ Socket.m_ok w' = false)
  /\ (forall err,
        (k < 10)%nat ->
        connect_outcome (Socket.connects w + k) = Some err ->
        err <> EAGAIN -> err <> ECONNREFUSED -> err <> EINPROGRESS ->
        exists w',
          Socket.connect_proc EAGAIN ECONNREFUSED EINPROGRESS INVALID_SOCKET
            connect_outcome non_blocking_ok w
          = Throws active_socket_prepare_exception w'
          /\ Socket.connects w' = (Socket.connects w + k + 1)%nat
          /\ Socket.events w'
             = Socket.events w ++ Socket.retry_rounds k
                 ++ [Socket.connect_call]
          /\ Socket.m_ok w' = false)
  /\ ((k < 10)%nat ->
      connect_outcome (Socket.connects w + k) = None ->
      exists w',
        Socket.connect_proc EAGAIN ECONNREFUSED EINPROGRESS INVALID_SOCKET
          connect_outcome non_blocking_ok w
        = (if non_blocking_ok
           then Returns tt w'
           else Throws active_socket_prepare_exception w')
        /\ Socket.connects w' = (Socket.connects w + k + 1)%nat
        /\ Socket.events w'
           = Socket.events w ++ Socket.retry_rounds k
               ++ [Socket.connect_call; Socket.set_non_blocking_mode_call]
        /\ Socket.m_ok w' = Socket.m_ok w && non_blocking_ok).
Proof.
  intros Hvalid Hk Hfail.
  destruct (connect_loop_rounds k 10 0 w Hk Hfail)
    as (w1 & Hrun & H1 & H2 & H3 & H4).
  assert (Hcheck : (INVALID_SOCKET =? Socket.m_socket w) = false)
    by (apply Z.eqb_neq; congruence).
  assert (Hstart :
    forall A (f : Z -> M Socket.world A),
      bind (gets Socket.m_socket)
           (fun s =>
              bind (when (INVALID_SOCKET =? s)
                         (Socket.fail_status active_socket_prepare_exception))
                   (fun _ =>
                      bind (Socket.connect_loop EAGAIN ECONNREFUSED
                              EINPROGRESS connect_outcome (Z.to_nat 10) 0) f))
           w
      = bind (Socket.connect_loop EAGAIN ECONNREFUSED EINPROGRESS
                connect_outcome (10 - k) (Z.of_nat k)) f w1).
  { intros A f. unfold bind at 1, gets. rewrite Hcheck.
    unfold bind at 1, when, ret. unfold bind at 1.
    change (Z.to_nat 10) with 10%nat. rewrite Hrun.
    reflexivity. }
  unfold Socket.connect_proc. cbv zeta. rewrite Hstart. clear Hstart.
  split; [|split].
  - intros ->. cbn [Nat.sub Socket.connect_loop]. unfold bind at 1, ret.
    change (Z.of_nat 10 =? 10) with true. unfold when, bind at 1.
    unfold Socket.fail_status. eexists. split; [reflexivity|].
    cbn [Socket.connects Socket.events Socket.m_ok].
    repeat split; assumption.
  - intros err Hlt Hout Hn1 Hn2 Hn3.
    destruct (10 - k)%nat as [|r] eqn:Er; [lia|].
    cbn [Socket.connect_loop]. unfold bind at 1 2 3, Socket.connect.
    rewrite H3, Hout.
    cbn [Socket.record Socket.m_socket Socket.m_ok Socket.connects
           Socket.socket_error Socket.events].
    change (-1 <? 0) with true. cbv iota.
    unfold bind at 1. unfold Socket.get_socket_error, gets.
    cbn [Socket.socket_error].
    rewrite (is_retry_error_false err Hn1 Hn2 Hn3).
    unfold bind at 1, Socket.fail_status.
    eexists. split; [reflexivity|].
    cbn [Socket.connects Socket.events Socket.m_ok].
    rewrite H3, H4, <- app_assoc. repeat split; lia.
  - intros Hlt Hout.
    destruct (10 - k)%nat as [|r] eqn:Er; [lia|].
    cbn [Socket.connect_loop]. unfold bind at 1 2 3, Socket.connect.
    rewrite H3, Hout.
    cbn [Socket.record Socket.m_socket Socket.m_ok Socket.connects
           Socket.socket_error Socket.events].
    change (0 <? 0) with false. cbv iota. unfold ret.
    replace (Z.of_nat k =? 10) with false by (symmetry; apply Z.eqb_neq; lia).
    unfold when, ret, bind at 1. unfold bind at 1.
    unfold Socket.set_non_blocking_mode, Socket.fail_status.
    cbn [Socket.record Socket.m_socket Socket.m_ok Socket.connects
           Socket.socket_error Socket.events].
    destruct non_blocking_ok; cbn [negb]; eexists;
      (split; [reflexivity|]);
      cbn [Socket.connects Socket.events Socket.m_ok];
      rewrite ?H2, ?H3, ?H4, <- ?app_assoc, ?andb_true_r, ?andb_false_r;
      repeat split;
      cbn [Socket.record Socket.connects Socket.events Socket.m_ok];
      rewrite <- ?app_assoc; first [lia | reflexivity].
Qed.

End ConnectFacts.

(** ** The claims at the example frames *)

(** C2, as stated, fails: the blob of [overlong_blob_frame] declares 7
    bytes where 1 is left, and the extraction throws message-too-short, not
    container-overflow. *)
Lemma overlong_blob_is_message_too_short :
  length_field default_L overlong_blob_frame 5 = Some 7
  /\ in_blob default_L true (attach default_L overlong_blob_frame, [])
     = Throws message_too_short_exception
         (mk_in_message (mk_message overlong_blob_frame false) 9, [])
  /\ forall st,
       in_blob default_L true (attach default_L overlong_blob_frame, [])
       <> Throws container_overflow_exception st.
Proof.
  split; [reflexivity|]. split; [reflexivity|].
  intros st H. vm_compute in H. discriminate.
Qed.

(** Both cases on frames: a blob that runs over, and the blob "abc". *)
Lemma in_blob_reads_declared_length_witness :
  in_blob default_L true (attach default_L overlong_blob_frame, [x01])
  = Throws message_too_short_exception
      (mk_in_message (mk_message overlong_blob_frame false) 9, [x01])
  /\ in_blob default_L true (attach default_L blob_frame, [x01])
     = Returns tt
         (mk_in_message (mk_message blob_frame true) 12, [x61; x62; x63]).
Proof.
  split.
  - apply (proj1 (in_blob_reads_declared_length
                    default_L true ltac:(unfold default_L; lia)
                    (attach default_L overlong_blob_frame) [x01] 10 7
                    eq_refl eq_refl ltac:(cbn; lia) ltac:(cbn; lia)
                    (fun _ => eq_refl) eq_refl)).
    cbn. lia.
  - apply (proj2 (in_blob_reads_declared_length
                    default_L true ltac:(unfold default_L; lia)
                    (attach default_L blob_frame) [x01] 12 3
                    eq_refl eq_refl ltac:(cbn; lia) ltac:(cbn; lia)
                    (fun _ => eq_refl) eq_refl)
                 [x61; x62; x63]).
    + cbn. lia.
    + reflexivity.
Defined.

(** C3, as stated, fails: the string "a\0b" is appended whole, and comes
    back as "a". *)
Lemma string_with_nul_comes_back_cut :
  exists m',
    out_string default_L default_max_size true [x61; x00; x62]
      (fresh_out_message default_L)
    = Returns tt m'
    /\ in_string default_L true (attach default_L (m_buffer m'), [])
       = Returns tt (mk_in_message (mk_message (m_buffer m') true) 7, [x61])
    /\ [x61] <> [x61; x00; x62].
Proof.
  eexists. split; [vm_compute; reflexivity|].
  split; [reflexivity|discriminate].
Qed.

(** The round trip of "abc". *)
Lemma string_round_trip_witness :
  exists m' prefix,
    out_string default_L default_max_size true (list_byte_of_string "abc")
      (fresh_out_message default_L)
    = Returns tt m'
    /\ length prefix = default_L
    /\ m_buffer m'
       = prefix ++ tag_bytes true type_tag.str
           ++ list_byte_of_string "abc" ++ [x00]
    /\ in_string default_L true (attach default_L (m_buffer m'), [x01])
       = Returns tt
           (mk_in_message (mk_message (m_buffer m') true)
                          (Z.of_nat (length (m_buffer m'))),
            list_byte_of_string "abc").
Proof.
  apply (string_round_trip default_L default_max_size true
           ltac:(unfold default_L; lia)
           (list_byte_of_string "abc") [x01]).
  - unfold default_L; lia.
  - reflexivity.
  - repeat constructor; discriminate.
  - unfold default_L, default_max_size, out_string_delta. cbn. lia.
Defined.

(** The four operators and [clear] on [failed_message]. *)
Lemma fail_flag_is_latched_witness :
  out_string default_L default_max_size true [x61] failed_message
  = Throws bad_message_exception failed_message
  /\ out_blob default_L default_max_size true [x61] failed_message
     = Throws bad_message_exception failed_message
  /\ in_string default_L true (mk_in_message failed_message 4, [x01])
     = Throws bad_message_exception (mk_in_message failed_message 4, [x01])
  /\ in_blob default_L true (mk_in_message failed_message 4, [x01])
     = Throws bad_message_exception (mk_in_message failed_message 4, [x01])
  /\ exists out',
       clear default_L failed_message = Returns tt out' /\ m_ok out' = true.
Proof.
  exact (fail_flag_is_latched default_L default_max_size true failed_message
           (mk_in_message failed_message 4) [x61] [x01] eq_refl eq_refl).
Defined.

(** C6, as stated, fails: behind the tag of [lone_string_tag_frame] there
    is no byte at all, so no 0 byte either, and the extraction throws
    message-too-short, not container-overflow. *)
Lemma lone_string_tag_is_message_too_short :
  byte_at lone_string_tag_frame 4 = Some (tag_code type_tag.str)
  /\ slice lone_string_tag_frame 4 (5 - 4) = Some [tag_code type_tag.str]
  /\ in_string default_L true (attach default_L lone_string_tag_frame, [])
     = Throws message_too_short_exception
         (mk_in_message (mk_message lone_string_tag_frame false) 4, [])
  /\ forall st,
       in_string default_L true (attach default_L lone_string_tag_frame, [])
       <> Throws container_overflow_exception st.
Proof.
  split; [reflexivity|]. split; [reflexivity|]. split; [reflexivity|].
  intros st H. vm_compute in H. discriminate.
Qed.

(** "abc" without its terminator. *)
Lemma in_string_without_terminator_witness :
  in_string default_L true (attach default_L unterminated_string_frame, [x01])
  = Throws container_overflow_exception
      (mk_in_message (mk_message unterminated_string_frame false) 5, []).
Proof.
  apply (in_string_without_terminator
           default_L true ltac:(unfold default_L; lia)
           (attach default_L unterminated_string_frame) [x01]
           [tag_code type_tag.str; x61; x62; x63] 8).
  - reflexivity.
  - reflexivity.
  - cbn. lia.
  - cbn. lia.
  - intros _. reflexivity.
  - reflexivity.
  - repeat constructor; discriminate.
Defined.

(** C7, as stated, fails: [chr_frame] holds a character, whose tag is not
    the one of a blob, and the extraction of a blob throws message-too-short,
    not type-mismatch. *)
Lemma short_element_is_message_too_short :
  byte_at chr_frame 4 = Some (tag_code type_tag.chr)
  /\ tag_code type_tag.chr <> tag_code type_tag.blob
  /\ in_blob default_L true (attach default_L chr_frame, [])
     = Throws message_too_short_exception
         (mk_in_message (mk_message chr_frame false) 4, [])
  /\ forall st,
       in_blob default_L true (attach default_L chr_frame, [])
       <> Throws type_mismach_exception st.
Proof.
  split; [reflexivity|]. split; [discriminate|]. split; [reflexivity|].
  intros st H. vm_compute in H. discriminate.
Qed.

(** An unsigned integer read as a string, and as a blob. *)
Lemma tag_mismatch_keeps_offset_witness :
  extract default_L true a_string (attach default_L u32_frame, [x01])
  = Throws type_mismach_exception
      (mk_in_message (mk_message u32_frame false) 4, [])
  /\ extract default_L true a_blob (attach default_L u32_frame, [x01])
     = Throws type_mismach_exception
         (mk_in_message (mk_message u32_frame false) 4, [x01]).
Proof.
  split.
  - apply (tag_mismatch_keeps_offset
             default_L true ltac:(unfold default_L; lia)
             a_string (attach default_L u32_frame) [x01] 9
             (tag_code type_tag.u32));
      try reflexivity; try (cbn; lia); discriminate.
  - apply (tag_mismatch_keeps_offset
             default_L true ltac:(unfold default_L; lia)
             a_blob (attach default_L u32_frame) [x01] 9
             (tag_code type_tag.u32));
      try reflexivity; try (cbn; lia); discriminate.
Defined.

(** C8, as stated, fails: the extraction of the blob of
    [overlong_blob_frame] throws message-too-short and leaves the offset at
    9, past the tag and the length field, where it was 4. *)
Lemma overlong_blob_moves_offset :
  exists m' dest',
    in_blob default_L true (attach default_L overlong_blob_frame, [])
    = Throws message_too_short_exception (m', dest')
    /\ m_offset (attach default_L overlong_blob_frame) = 4
    /\ m_offset m' = 9.
Proof.
  eexists. eexists. split; [vm_compute; reflexivity|]. split; reflexivity.
Qed.

(** The extraction of the blob "abc". *)
Lemma read_offset_advances_witness :
  let m := attach default_L blob_frame in
  match extract default_L true a_blob (m, []) with
  | Returns _ (m', _) =>
      m_offset m <= m_offset m' <= 12 /\ base m' = base m
  | Throws _ (m', _) => m_offset m <= m_offset m' /\ m_ok m' = false
  | Undefined => True
  end
  /\ (m_ok m = true ->
      12 < m_offset m + in_delta default_L true a_blob ->
      extract default_L true a_blob (m, [])
      = Throws message_too_short_exception
          (mk_in_message (mk_message (m_buffer m) false) (m_offset m), []))
  /\ (12 <= Z.of_nat (length (m_buffer m)) ->
      extract default_L true a_blob (m, []) <> Undefined).
Proof.
  apply (read_offset_advances default_L true ltac:(unfold default_L; lia)
           a_blob (attach default_L blob_frame) [] 12).
  - reflexivity.
  - cbn. lia.
Defined.

(** A blob of no byte, read into a vector that holds two bytes. *)
Lemma in_blob_empty_keeps_destination_witness :
  in_blob default_L true (attach default_L empty_blob_frame, [x01; x02])
  = Returns tt (mk_in_message (mk_message empty_blob_frame true) 9, [x01; x02])
  /\ forall old,
       in_string default_L true (attach default_L empty_blob_frame, old)
       = in_string default_L true (attach default_L empty_blob_frame, []).
Proof.
  apply (in_blob_empty_keeps_destination
           default_L true ltac:(unfold default_L; lia)
           (attach default_L empty_blob_frame) [x01; x02] 9).
  - reflexivity.
  - reflexivity.
  - cbn. lia.
  - cbn. lia.
  - intros _. reflexivity.
  - reflexivity.
Defined.

(** Three refusals, then success: four calls and three pauses. *)
Lemma refused_three_times_retries (j : nat) :
  (j < 3)%nat ->
  exists err,
    refused_three_times (Socket.connects new_socket + j) = Some err
    /\ (err = 11 \/ err = 111 \/ err = 115).
Proof.
  intros Hj. exists 111. split; [|right; left; reflexivity].
  destruct j as [|[|[|j]]]; try reflexivity. lia.
Qed.

Lemma connect_proc_retries_witness :
  exists w',
    Socket.connect_proc 11 111 115 (-1) refused_three_times true new_socket
    = Returns tt w'
    /\ Socket.connects w' = 4%nat
    /\ Socket.events w'
       = [Socket.connect_call; Socket.sleep_for_seconds 1;
          Socket.connect_call; Socket.sleep_for_seconds 1;
          Socket.connect_call; Socket.sleep_for_seconds 1;
          Socket.connect_call; Socket.set_non_blocking_mode_call]
    /\ Socket.m_ok w' = true.
Proof.
  apply (proj2 (proj2 (connect_proc_retries
                         11 111 115 (-1) refused_three_times true
                         new_socket 3
                         ltac:(cbn; lia) ltac:(lia)
                         refused_three_times_retries))).
  - lia.
  - reflexivity.
Defined.

(** ** The size limit for strings *)

(** X7: on a message whose flag is clear and whose length prefix is its
    buffer size, a string append succeeds when the buffer with the tag, the
    string and its terminator holds at most [MAX] bytes, exactly [MAX]
    included, and leaves a buffer of that size; with one byte more it throws
    message-overflow, sets the flag and leaves the buffer as it was. *)
Theorem string_append_boundary
        (L : nat) (max_size : Z) (use_tags : bool)
        (s : list byte) (m : out_message) (total : Z) :
  m_ok m = true ->
  length_field L (m_buffer m) 0 = Some (Z.of_nat (length (m_buffer m))) ->
  Z.of_nat (length (m_buffer m))
  + Z.of_nat (length (tag_bytes use_tags type_tag.str ++ s ++ [x00]))
  = total ->
  total < 2 ^ 64 ->
  (total <= max_size ->
   exists m',
     out_string L max_size use_tags s m = Returns tt m'
     /\ m_ok m' = true
     /\ Z.of_nat (length (m_buffer m')) = total)
  /\ (max_size < total ->
      out_string L max_size use_tags s m
      = Throws message_overflow_exception (mk_message (m_buffer m) false)).
Proof.
  intros Hok Hused Htotal H64.
  pose proof (length_tag_bytes use_tags type_tag.str) as Htag.
  pose proof (out_string_delta_eq use_tags) as Hd.
  pose proof (length_field_in_bounds _ _ _ _ Hused) as [_ HL].
  rewrite !length_app in Htotal. cbn [length] in Htotal.
  split; intros Hmax.
  - eexists. split; [|split].
    + apply (out_string_returns L max_size use_tags s m _ Hok Hused); lia.
    + reflexivity.
    + cbn [m_buffer].
      rewrite length_app, length_le_encode, length_skipn, !length_app.
      cbn [length]. lia.
  - apply (out_string_throws L max_size use_tags s m _ Hok Hused); lia.
Qed.

(** ** What connect_proc can end in *)

Section ConnectOutcomes.

Variables EAGAIN ECONNREFUSED EINPROGRESS INVALID_SOCKET : Z.
Variable connect_outcome : nat -> option Z.
Variable non_blocking_ok : bool.

(** The loop, whatever the environment: it returns the number of failed
    attempts, all of them with an error of the retry list, and it stopped
    because the attempts were used up or because the next call succeeded;
    it throws nothing but active-socket-prepare; it makes at most
    [remaining] calls. *)
Lemma connect_loop_outcomes
      (remaining : nat) (attempt : Z) (w : Socket.world) :
  match
    Socket.connect_loop EAGAIN ECONNREFUSED EINPROGRESS connect_outcome
      remaining attempt w
  with
  | Returns a w' =>
      Socket.m_socket w' = Socket.m_socket w
      /\ Socket.m_ok w' = Socket.m_ok w
      /\ exists k,
           (k <= remaining)%nat
           /\ a = attempt + Z.of_nat k
           /\ (forall j, (j < k)%nat ->
                 exists err,
                   connect_outcome (Socket.connects w + j) = Some err
                   /\ Socket.is_retry_error EAGAIN ECONNREFUSED EINPROGRESS
                        err = true)
           /\ (k = remaining
               /\ Socket.connects w' = (Socket.connects w + k)%nat
               \/ (k < remaining)%nat
                  /\ connect_outcome (Socket.connects w + k) = None
                  /\ Socket.connects w' = (Socket.connects w + k + 1)%nat)
  | Throws e w' =>
      e = active_socket_prepare_exception
      /\ Socket.m_ok w' = false
      /\ (Socket.connects w' <= Socket.connects w + remaining)%nat
  | Undefined => False
  end.
Proof.
  revert attempt w. induction remaining as [|remaining IH]; intros attempt w.
  - cbn. repeat split. exists 0%nat. repeat split; lia.
  - cbn [Socket.connect_loop]. unfold bind at 1. unfold Socket.connect.
    destruct (connect_outcome (Socket.connects w)) as [err|] eqn:Hout;
      cbn [Socket.record Socket.m_socket Socket.m_ok Socket.connects
             Socket.socket_error Socket.events].
    + change (-1 <? 0) with true. cbv iota.
      unfold bind at 1. unfold Socket.get_socket_error, gets.
      cbn [Socket.socket_error]. unfold bind at 1.
      destruct (Socket.is_retry_error EAGAIN ECONNREFUSED EINPROGRESS err)
        eqn:Hretry.
      * unfold Socket.sleep_for, modify.
        match goal with
        | |- context [Socket.connect_loop _ _ _ _ _ _ ?w1] =>
            specialize (IH (attempt + 1) w1);
            destruct (Socket.connect_loop EAGAIN ECONNREFUSED EINPROGRESS
                        connect_outcome remaining (attempt + 1) w1)
              as [a w'|e w'|]
        end; [| |exact IH].
        -- destruct IH as (H1 & H2 & k & Hk & Ha & Hfail & Hend).
           cbn [Socket.record Socket.m_socket Socket.m_ok Socket.connects
                  Socket.socket_error Socket.events] in *.
           split; [exact H1|]. split; [exact H2|].
           exists (S k). split; [lia|]. split; [lia|]. split.
           ++ intros j Hj. destruct j as [|j].
              ** exists err. rewrite Nat.add_0_r. split; assumption.
              ** destruct (Hfail j ltac:(lia)) as (e' & He' & Hr').
                 exists e'. split; [|exact Hr'].
                 rewrite <- He'. f_equal. lia.
           ++ destruct Hend as [[-> Hc]|(Hlt & Hnone & Hc)].
              ** left. split; [reflexivity|]. lia.
              ** right. split; [lia|]. split; [|lia].
                 rewrite <- Hnone. f_equal. lia.
        -- destruct IH as (He & Hok & Hc).
           cbn [Socket.record Socket.connects] in Hc.
           repeat split; try assumption. lia.
      * unfold Socket.fail_status.
        cbn [Socket.m_ok Socket.connects]. repeat split. lia.
    + change (0 <? 0) with false. cbv iota. unfold ret.
      cbn [Socket.m_socket Socket.m_ok Socket.connects].
      repeat split. exists 0%nat. split; [lia|]. split; [lia|]. split.
      * intros j Hj. lia.
      * right. rewrite Nat.add_0_r. repeat split; try assumption; lia.
Qed.

(** X8: [connect_proc] returns only when it is connected: the socket was
    valid, some call of [connect] among the first 10 succeeded, every call
    before it failed with an error of the retry list, no call was made
    after it, and the non-blocking mode was set.  Whatever else happens it
    raises active-socket-prepare and clears [m_ok], after 10 calls of
    [connect] at most. *)
Theorem connect_proc_outcomes (w : Socket.world) :
  match
    Socket.connect_proc EAGAIN ECONNREFUSED EINPROGRESS INVALID_SOCKET
      connect_outcome non_blocking_ok w
  with
  | Returns _ w' =>
      Socket.m_socket w <> INVALID_SOCKET
      /\ non_blocking_ok = true
      /\ Socket.m_ok w' = Socket.m_ok w
      /\ exists k,
           (k < 10)%nat
           /\ connect_outcome (Socket.connects w + k) = None
           /\ Socket.connects w' = (Socket.connects w + k + 1)%nat
           /\ forall j, (j < k)%nat ->
                exists err,
                  connect_outcome (Socket.connects w + j) = Some err
                  /\ Socket.is_retry_error EAGAIN ECONNREFUSED EINPROGRESS
                       err = true
  | Throws e w' =>
      e = active_socket_prepare_exception
      /\ Socket.m_ok w' = false
      /\ (Socket.connects w' <= Socket.connects w + 10)%nat
  | Undefined => False
  end.
Proof.
  unfold Socket.connect_proc. cbv zeta.
  unfold bind at 1, gets.
  destruct (INVALID_SOCKET =? Socket.m_socket w) eqn:Hvalid.
  - unfold when, bind at 1, Socket.fail_status.
    cbn [Socket.m_ok Socket.connects]. repeat split. lia.
  - apply Z.eqb_neq in Hvalid.
    unfold when at 1, ret, bind at 1. unfold bind at 1.
    change (Z.to_nat 10) with 10%nat.
    pose proof (connect_loop_outcomes 10 0 w) as Hloop.
    destruct (Socket.connect_loop EAGAIN ECONNREFUSED EINPROGRESS
                connect_outcome 10 0 w) as [a w1|e w1|];
      [|exact Hloop|exact Hloop].
    destruct Hloop as (H1 & H2 & k & Hk & Ha & Hfail & Hend).
    unfold bind at 1. destruct (a =? 10) eqn:Ea.
    + unfold when, Socket.fail_status.
      cbn [Socket.m_ok Socket.connects].
      repeat split. destruct Hend as [[_ Hc]|(Hlt & _ & Hc)]; lia.
    + apply Z.eqb_neq in Ea. unfold when at 1, ret.
      unfold bind at 1. unfold Socket.set_non_blocking_mode.
      destruct Hend as [[Hk10 _]|(Hlt & Hnone & Hc)]; [lia|].
      destruct non_blocking_ok; cbn [negb when]; unfold ret.
      * cbn [Socket.record Socket.m_ok Socket.connects].
        split; [congruence|]. split; [reflexivity|]. split; [exact H2|].
        exists k. repeat split; assumption.
      * unfold Socket.fail_status.
        cbn [Socket.record Socket.m_ok Socket.connects].
        repeat split. lia.
Qed.

End ConnectOutcomes.

(** ** Closing and binding a listening socket *)

Section ServerFacts.

Variable INVALID_SOCKET : Z.
Variable non_blocking_ok : bool.
Variables bind_result listen_result : Z.

(** X9: [socket::close] closes a descriptor once.  After it the socket is
    invalid; on a valid socket it makes one [close] call on the descriptor
    and clears [m_ok]; a second [close] changes nothing and makes no
    call. *)
Theorem close_is_idempotent (s : Server.server_socket) :
  Server.m_socket (Server.close INVALID_SOCKET s) = INVALID_SOCKET
  /\ Server.close INVALID_SOCKET (Server.close INVALID_SOCKET s)
     = Server.close INVALID_SOCKET s
  /\ Server.calls (Server.close INVALID_SOCKET s)
     = Server.calls s
         ++ (if Server.m_socket s =? INVALID_SOCKET then []
             else [Server.close_call (Server.m_socket s)])
  /\ (Server.m_socket s <> INVALID_SOCKET ->
      Server.m_ok (Server.close INVALID_SOCKET s) = false).
Proof.
  unfold Server.close.
  destruct (Server.m_socket s =? INVALID_SOCKET) eqn:E; cbn [negb].
  - apply Z.eqb_eq in E. rewrite app_nil_r.
    repeat split; try assumption.
    + rewrite E, Z.eqb_refl. reflexivity.
    + intros H. contradiction.
  - cbn [Server.m_socket Server.calls Server.m_ok].
    rewrite Z.eqb_refl. cbn [negb]. repeat split.
Qed.

(** X10: [unix_server_socket::close] removes the path of a socket with a
    non-empty link on every call, also when the descriptor is closed
    already: two calls in a row close the descriptor once and unlink the
    path twice. *)
Theorem unix_close_unlinks_each_time (s : Server.server_socket) :
  Server.m_link s <> [] ->
  Server.m_socket s <> INVALID_SOCKET ->
  Server.calls
    (Server.unix_close INVALID_SOCKET (Server.unix_close INVALID_SOCKET s))
  = Server.calls s
      ++ [Server.close_call (Server.m_socket s);
          Server.unlink_call (Server.m_link s);
          Server.unlink_call (Server.m_link s)].
Proof.
  intros Hlink Hvalid.
  assert (Hlen : Nat.eqb (length (Server.m_link s)) 0 = false).
  { destruct (Server.m_link s); [contradiction|reflexivity]. }
  apply Z.eqb_neq in Hvalid.
  unfold Server.unix_close, Server.close. cbv zeta.
  rewrite Hvalid. cbn. rewrite Hlen. cbn.
  rewrite Z.eqb_refl. cbn. rewrite Hlen. cbn.
  rewrite <- !app_assoc. reflexivity.
Qed.

(** X11: [bind_proc] calls [bind] only on a valid socket that was put in
    non-blocking mode, and [listen] (with a backlog of 100) only after
    [bind] returned 0.  It returns only when all three calls succeeded, with
    [m_ok] as it was; otherwise it raises passive-socket-prepare at the
    first failure, with [m_ok] cleared, and makes no further call. *)
Theorem bind_proc_stops_at_first_failure (s : Server.server_socket) :
  let fd := Server.m_socket s in
  let c :=
    Server.bind_proc INVALID_SOCKET non_blocking_ok bind_result
      listen_result s in
  exists made,
    Server.calls (Server.final c) = Server.calls s ++ made
    /\ (In (Server.bind_call fd) made ->
        fd <> INVALID_SOCKET /\ non_blocking_ok = true)
    /\ (In (Server.listen_call fd 100) made ->
        fd <> INVALID_SOCKET /\ non_blocking_ok = true /\ bind_result = 0)
    /\ match c with
       | Server.returned s' =>
           fd <> INVALID_SOCKET /\ non_blocking_ok = true
           /\ bind_result = 0 /\ listen_result = 0
           /\ made = [Server.set_non_blocking_mode_call fd;
                      Server.bind_call fd; Server.listen_call fd 100]
           /\ Server.m_ok s' = Server.m_ok s
           /\ Server.m_socket s' = fd
       | Server.raised e s' =>
           e = Server.passive_socket_prepare_exception
           /\ Server.m_ok s' = false
           /\ Server.m_socket s' = fd
           /\ (fd = INVALID_SOCKET \/ non_blocking_ok = false
               \/ bind_result <> 0 \/ listen_result <> 0)
       end.
Proof.
  cbv zeta. unfold Server.bind_proc.
  destruct (INVALID_SOCKET =? Server.m_socket s) eqn:Ev.
  { apply Z.eqb_eq in Ev. exists []. cbn. rewrite app_nil_r.
    repeat split; try contradiction. left. congruence. }
  apply Z.eqb_neq in Ev.
  assert (Hv : Server.m_socket s <> INVALID_SOCKET) by congruence.
  destruct non_blocking_ok; cbn [negb].
  2:{ eexists. cbn. split; [reflexivity|].
      cbn; intuition (try discriminate; try congruence). }
  destruct (bind_result =? 0) eqn:Eb; cbn [negb].
  2:{ apply Z.eqb_neq in Eb. eexists. cbn.
      rewrite <- app_assoc. split; [reflexivity|].
      cbn; intuition (try discriminate; try congruence). }
  apply Z.eqb_eq in Eb.
  destruct (listen_result =? 0) eqn:El; cbn [negb].
  - apply Z.eqb_eq in El. eexists. cbn.
    rewrite <- !app_assoc. split; [reflexivity|].
    cbn; intuition (try discriminate; try congruence).
  - apply Z.eqb_neq in El. eexists. cbn.
    rewrite <- !app_assoc. split; [reflexivity|].
    cbn; intuition (try discriminate; try congruence).
Qed.

End ServerFacts.

(** ** The names of the type tags *)

(** X12: [to_string] gives every enumerator a name of its own, and none of
    them the name "unknown" of the [default] branch: the two names in a
    type-mismatch message tell the two tags apart. *)
Theorem to_string_is_injective (a b : option type_tag.t) :
  to_string a = to_string b -> a = b.
Proof.
  destruct a as [[]|], b as [[]|]; cbn; intros H;
    first [reflexivity | discriminate H].
Qed.

(** ** The further properties at example frames *)

(** The first of the two strings of [two_strings_frame]. *)
Lemma in_string_returns_witness :
  in_string default_L true (attach default_L two_strings_frame, [x01])
  = Returns tt
      (mk_in_message (mk_message two_strings_frame true) 8, [x61; x62]).
Proof.
  apply (in_string_returns default_L true ltac:(unfold default_L; lia)
           (attach default_L two_strings_frame) [x01] [x61; x62]
           [tag_code type_tag.str; x63; x00] 11).
  - reflexivity.
  - reflexivity.
  - cbn. lia.
  - intros _. reflexivity.
  - reflexivity.
  - repeat constructor; discriminate.
  - cbn. lia.
Defined.

(** The string "c" behind the string "ab". *)
Lemma append_then_extract_witness :
  exists m',
    append default_L default_max_size true a_string [x63]
      message_with_string
    = Returns tt m'
    /\ extract default_L true a_string (mk_in_message m' 8, [x01])
       = Returns tt (mk_in_message m' 11, [x63]).
Proof.
  destruct (append_then_extract
              default_L default_max_size true ltac:(unfold default_L; lia)
              a_string [x63] [x01] message_with_string 12)
    as (m' & Happend & Hextract).
  - reflexivity.
  - reflexivity.
  - cbn. lia.
  - cbn. unfold default_max_size. lia.
  - reflexivity.
  - intros _. repeat constructor; discriminate.
  - exists m'. split; [exact Happend|].
    assert (Hm' : m' = message_with_two_strings)
      by (vm_compute in Happend; injection Happend as <-; reflexivity).
    subst m'. exact Hextract.
Defined.

Lemma append_keeps_earlier_elements_witness :
  m_ok message_with_two_strings = true
  /\ exists prefix,
       length prefix = default_L
       /\ m_buffer message_with_two_strings
          = prefix ++ skipn default_L (m_buffer message_with_string)
              ++ element_bytes default_L true a_string [x63].
Proof.
  exact (append_keeps_earlier_elements
           default_L default_max_size true a_string [x63]
           message_with_string message_with_two_strings eq_refl).
Defined.

(** With a limit of 8 bytes the string "abc" does not fit a new message. *)
Lemma failed_append_keeps_buffer_witness :
  m_buffer (mk_message (le_encode default_L 4) false)
  = m_buffer (fresh_out_message default_L)
  /\ m_ok (mk_message (le_encode default_L 4) false) = false
  /\ (message_overflow_exception = bad_message_exception
      /\ m_ok (fresh_out_message default_L) = false
      \/ message_overflow_exception = message_overflow_exception
         /\ m_ok (fresh_out_message default_L) = true).
Proof.
  exact (failed_append_keeps_buffer
           default_L 8 true a_string [x61; x62; x63]
           (fresh_out_message default_L)
           (mk_message (le_encode default_L 4) false)
           message_overflow_exception eq_refl).
Defined.

(** The two strings of [two_strings_frame], one after the other. *)
Lemma extract_all_offsets_witness :
  let m := attach default_L two_strings_frame in
  match
    extract_all default_L true [a_string; a_string] (m, [])
  with
  | Returns _ (m', _) =>
      m_offset m <= m_offset m' <= 11 /\ base m' = base m
  | Throws _ (m', _) => m_offset m <= m_offset m' /\ m_ok m' = false
  | Undefined => True
  end.
Proof.
  apply (extract_all_offsets default_L true ltac:(unfold default_L; lia)
           [a_string; a_string] (attach default_L two_strings_frame) [] 11).
  - reflexivity.
  - cbn. lia.
Defined.

(** "abc" fills a new message up to a limit of 9 bytes, and does not fit a
    limit of 8. *)
Lemma string_append_boundary_witness :
  (exists m',
     out_string default_L 9 true [x61; x62; x63]
       (fresh_out_message default_L)
     = Returns tt m'
     /\ m_ok m' = true
     /\ Z.of_nat (length (m_buffer m')) = 9)
  /\ out_string default_L 8 true [x61; x62; x63]
       (fresh_out_message default_L)
     = Throws message_overflow_exception
         (mk_message (m_buffer (fresh_out_message default_L)) false).
Proof.
  split.
  - apply (proj1 (string_append_boundary
                    default_L 9 true [x61; x62; x63]
                    (fresh_out_message default_L) 9
                    eq_refl eq_refl eq_refl eq_refl)).
    lia.
  - apply (proj2 (string_append_boundary
                    default_L 8 true [x61; x62; x63]
                    (fresh_out_message default_L) 9
                    eq_refl eq_refl eq_refl eq_refl)).
    lia.
Defined.

(** Two calls of [close] on [listening_socket]. *)
Lemma unix_close_unlinks_each_time_witness :
  Server.calls
    (Server.unix_close (-1) (Server.unix_close (-1) listening_socket))
  = [Server.close_call 3; Server.unlink_call [x73];
     Server.unlink_call [x73]].
Proof.
  apply (unix_close_unlinks_each_time (-1) listening_socket).
  - discriminate.
  - cbn. lia.
Defined.

Lemma to_string_is_injective_witness :
  Some type_tag.str = Some type_tag.str.
Proof.
  exact (to_string_is_injective (Some type_tag.str) (Some type_tag.str)
           eq_refl).
Defined.
